(** * spin-fileserver, Python example: the request handler and its event loop

    [examples/python/app.py] routes an incoming HTTP request and runs the
    asynchronous handler on a [PollLoop], writing through a [Sink].  The
    handler is embedded from [app.py]; the module [poll_loop] that provides
    [Stream], [Sink] and [PollLoop] is embedded from its specification. *)

From Stdlib Require Import Strings.Byte.
From stdpp Require Import base option list gmap strings.


(** ** Values exchanged with the host *)

Abbreviation bytes := (list Byte.byte).
Abbreviation pollable := nat (only parsing).
Abbreviation handle := nat (only parsing).
Abbreviation frame_id := nat (only parsing).
Abbreviation cause := string (only parsing).

(** The [b"..."] literals of the source. *)
Definition b (s : string) : bytes := String.list_byte_of_string s.
Arguments b s%_string.

(** [wasi:http/types.method], whose Python classes ([MethodGet], [MethodPost],
    ...) the source imports from the generated bindings. *)
Inductive Method :=
| MethodGet | MethodHead | MethodPost | MethodPut | MethodDelete
| MethodConnect | MethodOptions | MethodTrace | MethodPatch
| MethodOther (name : string).

Definition isinstance_MethodGet (m : Method) : bool :=
  match m with MethodGet => true | _ => false end.

(** An incoming request, as far as the handler looks at it: [method()] and
    [path_with_query()], the latter an [Optional[str]]. *)
Record IncomingRequest := {
  request_id : nat;
  method : Method;
  path_with_query : option string
}.

Abbreviation ResponseOutparam := nat (only parsing).

Abbreviation Fields := (list (string * bytes)).

(** [OutgoingResponse(status, headers)]. *)
Record OutgoingResponse := {
  status_code : nat;
  headers : Fields
}.

Inductive Result (A E : Type) := Ok (a : A) | Err (e : E).
Arguments Ok {A E} a.
Arguments Err {A E} e.

(** ** The host contract (spec, section 6) *)

Inductive read_result :=
| ReadReady (bs : bytes)
| ReadWouldBlock (p : pollable)
| ReadError (c : cause).

Inductive write_result :=
| WriteReady (accepted : nat)
| WriteWouldBlock (p : pollable)
| WriteError (c : cause).

(** Every call that crosses the boundary to the host, in the order made. *)
Inductive host_call :=
| CallRead (h : handle) (max_bytes : nat)
| CallWrite (h : handle) (bs : bytes)
| CallPoll (ps : list pollable)
| CallDropInput (h : handle)
| CallFinish (h : handle) (trailers : option Fields)
| CallResponseWrite (r : OutgoingResponse) (h : handle)
| CallSetOutparam (out : ResponseOutparam) (r : Result OutgoingResponse string)
| CallDelegate (request : IncomingRequest) (out : ResponseOutparam).

(** Modelled from the spec: the component runtime, which is not part of the
    repository.  A resource handle answers successive non-blocking attempts
    with the results listed for it ([readable], [writable]); the bytes a write
    handle accepted are observed in [downstream].  The readiness primitive
    [poll_answer] may depend on everything the host was asked so far. *)
Record host := {
  readable : gmap handle (list read_result);
  writable : gmap handle (list write_result);
  downstream : gmap handle bytes;
  poll_answer : list host_call -> list pollable -> list nat;
  next_handle : handle;
  calls : list host_call
}.

Definition called (c : host_call) (h : host) : host :=
  {| readable := readable h; writable := writable h;
     downstream := downstream h; poll_answer := poll_answer h;
     next_handle := next_handle h; calls := calls h ++ [c] |}.

Definition set_readable (m : gmap handle (list read_result)) (h : host) : host :=
  {| readable := m; writable := writable h;
     downstream := downstream h; poll_answer := poll_answer h;
     next_handle := next_handle h; calls := calls h |}.

Definition set_writable (m : gmap handle (list write_result)) (h : host) : host :=
  {| readable := readable h; writable := m;
     downstream := downstream h; poll_answer := poll_answer h;
     next_handle := next_handle h; calls := calls h |}.

Definition set_downstream (m : gmap handle bytes) (h : host) : host :=
  {| readable := readable h; writable := writable h;
     downstream := m; poll_answer := poll_answer h;
     next_handle := next_handle h; calls := calls h |}.

Definition set_next_handle (n : handle) (h : host) : host :=
  {| readable := readable h; writable := writable h;
     downstream := downstream h; poll_answer := poll_answer h;
     next_handle := n; calls := calls h |}.

(** Modelled from the spec: [non_blocking_read(handle, max_bytes)] of section
    6.  The next listed answer is consumed; a handle with nothing left to
    answer is at its end and answers with no bytes. *)
Definition non_blocking_read (h : handle) (max_bytes : nat) (hst : host)
  : read_result * host :=
  let hst := called (CallRead h max_bytes) hst in
  match readable hst !!! h with
  | [] => (ReadReady [], hst)
  | r :: rest => (r, set_readable (<[h := rest]> (readable hst)) hst)
  end.

(** Modelled from the spec: [non_blocking_write(handle, bytes)] of section 6.
    The host may accept fewer bytes than offered, never more; what it accepts
    is appended downstream.  A handle with nothing left to answer reports an
    error. *)
Definition non_blocking_write (h : handle) (bs : bytes) (hst : host)
  : write_result * host :=
  let hst := called (CallWrite h bs) hst in
  match writable hst !!! h with
  | [] => (WriteError "closed"%string, hst)
  | WriteReady n :: rest =>
      let n := Nat.min n (length bs) in
      (WriteReady n,
       set_downstream (<[h := downstream hst !!! h ++ take n bs]> (downstream hst))
         (set_writable (<[h := rest]> (writable hst)) hst))
  | r :: rest => (r, set_writable (<[h := rest]> (writable hst)) hst)
  end.

(** Modelled from the spec: [poll_list(pollables)] of section 6, returning
    the indices of the ready handles. *)
Definition poll_list (ps : list pollable) (hst : host) : list nat * host :=
  (poll_answer hst (calls hst) ps, called (CallPoll ps) hst).

(** ** Errors, values and computations *)

(** Modelled from the spec: the error taxonomy of section 7. *)
Inductive error :=
| WouldBlock (p : pollable)
| StreamReadError (c : cause)
| SinkWriteError (c : cause)
| StreamClosed
| SinkClosed
| SchedulingContractViolation
| ApplicationError (c : cause).

Definition is_WouldBlock (e : error) : bool :=
  match e with WouldBlock _ => true | _ => false end.

(** Modelled from the spec: what an await expression evaluates to.  [VEof]
    is the distinct terminal value of a [Stream] (section 4.2, step 2);
    [VChunk] carries a chunk that was read. *)
Inductive value :=
| VNone
| VChunk (bs : bytes)
| VEof
| VBytes (bs : bytes)
| VPair (a b : value).

(** Modelled from the spec: an asynchronous computation as an explicit
    resumable state machine (section 9).  [Wait f retry] is a suspension
    point: frame [f] is parked and will retry [retry] when it is resumed.
    [Both] awaits two computations that may be suspended at the same time;
    [Try] is an exception handler of the application. *)
Inductive comp :=
| Ret (v : value)
| Raise (e : error)
| Bind (c : comp) (k : value -> comp)
| Try (c : comp) (handler : error -> comp)
| Both (l r : comp)
| NextChunk (s : handle) (max_bytes : nat)
| StreamClose (s : handle)
| Send (s : handle) (buf : bytes) (offset : nat)
| SinkClose (s : handle)
| ResponseWrite (r : OutgoingResponse) (k : handle -> comp)
| SetOutparam (out : ResponseOutparam) (r : Result OutgoingResponse string)
| Delegate (request : IncomingRequest) (out : ResponseOutparam)
| Finish (body : handle) (trailers : option Fields)
| Wait (f : frame_id) (retry : comp).

Declare Scope comp_scope.
Delimit Scope comp_scope with comp.
Bind Scope comp_scope with comp.
Notation "c1 ;; c2" := (Bind c1 (fun _ => c2))
  (at level 100, c2 at level 200, right associativity) : comp_scope.

(** ** The event loop's state *)

(** What the loop does: it parks a frame on a pollable, calls the readiness
    primitive with a list and gets the ready indices, resumes a frame; and
    an application handler catching an error. *)
Inductive event :=
| EvSuspend (p : pollable) (f : frame_id)
| EvPoll (ps : list pollable) (ready : list nat)
| EvResume (p : pollable) (f : frame_id)
| EvCaught (e : error).

(** Modelled from the spec: the [PollLoop] object.  [wakers] maps the
    outstanding pollable handles to the frames waiting on them, in
    registration order; [trace] records what the loop did. *)
Record PollLoop := {
  wakers : list (pollable * frame_id);
  next_frame : frame_id;
  trace : list event
}.

Definition PollLoop_new : PollLoop :=
  {| wakers := []; next_frame := 0; trace := [] |}.

(** The host together with the objects of the program: which [Stream]s and
    [Sink]s were closed, and the loop. *)
Record world := {
  the_host : host;
  closed_streams : gset handle;
  closed_sinks : gset handle;
  the_loop : PollLoop
}.

Definition with_host (h : host) (w : world) : world :=
  {| the_host := h; closed_streams := closed_streams w;
     closed_sinks := closed_sinks w; the_loop := the_loop w |}.

Definition with_loop (l : PollLoop) (w : world) : world :=
  {| the_host := the_host w; closed_streams := closed_streams w;
     closed_sinks := closed_sinks w; the_loop := l |}.

Definition close_stream (s : handle) (w : world) : world :=
  {| the_host := the_host w; closed_streams := {[s]} ∪ closed_streams w;
     closed_sinks := closed_sinks w; the_loop := the_loop w |}.

Definition close_sink (s : handle) (w : world) : world :=
  {| the_host := the_host w; closed_streams := closed_streams w;
     closed_sinks := {[s]} ∪ closed_sinks w; the_loop := the_loop w |}.

Definition traced (e : event) (w : world) : world :=
  with_loop {| wakers := wakers (the_loop w);
               next_frame := next_frame (the_loop w);
               trace := trace (the_loop w) ++ [e] |} w.

Definition set_wakers (ws : list (pollable * frame_id)) (w : world) : world :=
  with_loop {| wakers := ws;
               next_frame := next_frame (the_loop w);
               trace := trace (the_loop w) |} w.

(** Modelled from the spec: step 3 of sections 4.2 and 4.3, registering a
    pollable as the wait condition of the current continuation and
    suspending. *)
Definition register (p : pollable) (retry : comp) (w : world) : comp * world :=
  let f := next_frame (the_loop w) in
  (Wait f retry,
   with_loop {| wakers := wakers (the_loop w) ++ [(p, f)];
                next_frame := S f;
                trace := trace (the_loop w) ++ [EvSuspend p f] |} w).

(** ** Stream and Sink (spec, sections 4.2 and 4.3) *)

(** Modelled from the spec: the result of one attempt of a [Stream] or
    [Sink] operation: a value for the caller, would-block with the pollable
    to wait on, more of the buffer left to write, or a failure. *)
Inductive attempt :=
| Delivered (v : value)
| Suspend (p : pollable)
| Again (offset : nat)
| Failed (e : error).

(** Modelled from the spec: one attempt of [Stream.next_chunk], steps 1, 2
    and 4 of section 4.2, and the check of a closed [Stream]. *)
Definition Stream_attempt (s : handle) (max_bytes : nat) (w : world)
  : attempt * world :=
  if bool_decide (s ∈ closed_streams w) then (Failed StreamClosed, w)
  else
    let '(r, hst) := non_blocking_read s max_bytes (the_host w) in
    match r with
    | ReadReady [] => (Delivered VEof, with_host hst w)
    | ReadReady bs => (Delivered (VChunk bs), with_host hst w)
    | ReadWouldBlock p => (Suspend p, with_host hst w)
    | ReadError c => (Failed (StreamReadError c), close_stream s (with_host hst w))
    end.

(** Modelled from the spec: [Stream.close]. *)
Definition Stream_close (s : handle) (w : world) : attempt * world :=
  if bool_decide (s ∈ closed_streams w) then (Failed StreamClosed, w)
  else (Delivered VNone,
        close_stream s (with_host (called (CallDropInput s) (the_host w)) w)).

(** Modelled from the spec: one attempt of [Sink.send], steps 1, 2 and 4 of
    section 4.3: write the unsent suffix, advance the offset by what the
    host accepted, and go again while bytes remain. *)
Definition Sink_attempt (s : handle) (buf : bytes) (offset : nat) (w : world)
  : attempt * world :=
  if bool_decide (s ∈ closed_sinks w) then (Failed SinkClosed, w)
  else
    let '(r, hst) := non_blocking_write s (drop offset buf) (the_host w) in
    match r with
    | WriteReady n =>
        if length buf <=? offset + n
        then (Delivered VNone, with_host hst w)
        else (Again (offset + n), with_host hst w)
    | WriteWouldBlock p => (Suspend p, with_host hst w)
    | WriteError c => (Failed (SinkWriteError c), with_host hst w)
    end.

(** Modelled from the spec: [Sink.close], which finalizes the response
    body. *)
Definition Sink_close (s : handle) (w : world) : attempt * world :=
  if bool_decide (s ∈ closed_sinks w) then (Failed SinkClosed, w)
  else (Delivered VNone,
        close_sink s (with_host (called (CallFinish s None) (the_host w)) w)).

(** ** Driving a computation *)

Definition host_call_of (c : comp) : option host_call :=
  match c with
  | SetOutparam out r => Some (CallSetOutparam out r)
  | Delegate request out => Some (CallDelegate request out)
  | Finish body trailers => Some (CallFinish body trailers)
  | _ => None
  end.

(** Modelled from the spec: step 1 of section 4.1, "step the computation
    until it either completes or suspends".  The result is [Ret], [Raise] or
    a computation all of whose active frames are parked in a [Wait].  An
    operation that would block registers its pollable and suspends (step 3 of
    sections 4.2 and 4.3); a failure unwinds through [Bind] and [Both] and is
    caught by the innermost [Try]. *)
Fixpoint drive (fuel : nat) (c : comp) (w : world) : option (comp * world) :=
  match fuel with
  | 0 => None
  | S fuel =>
      match c with
      | Ret v => Some (Ret v, w)
      | Raise e => Some (Raise e, w)
      | Wait f retry => Some (Wait f retry, w)
      | Bind c1 k =>
          match drive fuel c1 w with
          | None => None
          | Some (Ret v, w1) => drive fuel (k v) w1
          | Some (Raise e, w1) => Some (Raise e, w1)
          | Some (c1', w1) => Some (Bind c1' k, w1)
          end
      | Try c1 handler =>
          match drive fuel c1 w with
          | None => None
          | Some (Ret v, w1) => Some (Ret v, w1)
          | Some (Raise e, w1) => drive fuel (handler e) (traced (EvCaught e) w1)
          | Some (c1', w1) => Some (Try c1' handler, w1)
          end
      | Both l r =>
          match drive fuel l w with
          | None => None
          | Some (Raise e, w1) => Some (Raise e, w1)
          | Some (l', w1) =>
              match drive fuel r w1 with
              | None => None
              | Some (Raise e, w2) => Some (Raise e, w2)
              | Some (r', w2) =>
                  match l', r' with
                  | Ret a, Ret b => Some (Ret (VPair a b), w2)
                  | _, _ => Some (Both l' r', w2)
                  end
              end
          end
      | NextChunk s max_bytes =>
          match Stream_attempt s max_bytes w with
          | (Delivered v, w1) => Some (Ret v, w1)
          | (Suspend p, w1) => Some (register p (NextChunk s max_bytes) w1)
          | (Again _, w1) => drive fuel (NextChunk s max_bytes) w1
          | (Failed e, w1) => Some (Raise e, w1)
          end
      | StreamClose s =>
          match Stream_close s w with
          | (Failed e, w1) => Some (Raise e, w1)
          | (_, w1) => Some (Ret VNone, w1)
          end
      | Send s buf offset =>
          match Sink_attempt s buf offset w with
          | (Delivered v, w1) => Some (Ret v, w1)
          | (Suspend p, w1) => Some (register p (Send s buf offset) w1)
          | (Again offset', w1) => drive fuel (Send s buf offset') w1
          | (Failed e, w1) => Some (Raise e, w1)
          end
      | SinkClose s =>
          match Sink_close s w with
          | (Failed e, w1) => Some (Raise e, w1)
          | (_, w1) => Some (Ret VNone, w1)
          end
      | ResponseWrite r k =>
          let body := next_handle (the_host w) in
          drive fuel (k body)
            (with_host (called (CallResponseWrite r body)
                          (set_next_handle (S body) (the_host w))) w)
      | SetOutparam _ _ | Delegate _ _ | Finish _ _ =>
          match host_call_of c with
          | Some call => Some (Ret VNone, with_host (called call (the_host w)) w)
          | None => None
          end
      end
  end.

(** Modelled from the spec: marking frame [f] resumable (section 4.1, step
    5): its suspension point is replaced by the operation it has to retry. *)
Fixpoint wake (f : frame_id) (c : comp) : comp :=
  match c with
  | Wait f' retry => if Nat.eqb f' f then retry else c
  | Bind c1 k => Bind (wake f c1) k
  | Try c1 handler => Try (wake f c1) handler
  | Both l r => Both (wake f l) (wake f r)
  | _ => c
  end.

(** ** PollLoop.run_until_complete (spec, section 4.1) *)

(** Modelled from the spec: [Result | Fail] of [run_until_complete]. *)
Inductive outcome :=
| Completed (v : value)
| Fail (e : error).

(** Index [i] is in the ready set. *)
Definition is_ready (ready : list nat) (i : nat) : bool :=
  bool_decide (i ∈ ready).

(** Modelled from the spec: the host kept its contract (sections 6 and 7):
    some handle is ready, and every index it returned is one of the list it
    was given. *)
Definition contract_kept (ready : list nat) (ps : list pollable) : bool :=
  negb (bool_decide (ready = [])) && forallb (fun i => i <? length ps) ready.

(** Modelled from the spec: the wakers whose index is in the ready set
    (section 4.1, step 5), and the others, both in registration order. *)
Fixpoint split_ready (ready : list nat) (i : nat)
    (ws : list (pollable * frame_id))
  : list (pollable * frame_id) * list (pollable * frame_id) :=
  match ws with
  | [] => ([], [])
  | wk :: ws' =>
      let '(rs, ns) := split_ready ready (S i) ws' in
      if is_ready ready i then (wk :: rs, ns) else (rs, wk :: ns)
  end.

(** Modelled from the spec: step 5 of section 4.1, the ready frames are
    resumed one after the other, each by retrying its operation. *)
Fixpoint resume_all (fuel : nat) (frames : list (pollable * frame_id))
    (root : comp) (w : world) : option (comp * world) :=
  match frames with
  | [] => Some (root, w)
  | (p, f) :: rest =>
      match drive fuel (wake f root) (traced (EvResume p f) w) with
      | None => None
      | Some (root', w') => resume_all fuel rest root' w'
      end
  end.

(** Modelled from the spec: the algorithm of section 4.1.  [None] stands for
    a call that does not return within [fuel] rounds and steps; a suspended
    computation with no pollable to wait for never returns. *)
Fixpoint run_until_complete (fuel : nat) (root : comp) (w : world)
  : option (outcome * world) :=
  match fuel with
  | 0 => None
  | S fuel =>
      match drive fuel root w with
      | None => None
      | Some (Ret v, w1) => Some (Completed v, w1)
      | Some (Raise e, w1) => Some (Fail e, w1)
      | Some (root1, w1) =>
          let ws := wakers (the_loop w1) in
          let ps := ws.*1 in
          match ps with
          | [] => None
          | _ =>
              let '(ready, hst) := poll_list ps (the_host w1) in
              let w2 := traced (EvPoll ps ready) (with_host hst w1) in
              if contract_kept ready ps then
                let '(rs, ns) := split_ready ready 0 ws in
                match resume_all fuel rs root1 (set_wakers ns w2) with
                | None => None
                | Some (root2, w3) => run_until_complete fuel root2 w3
                end
              else Some (Fail SchedulingContractViolation, w2)
          end
      end
  end.

(** ** The handler of [app.py] *)

Definition path_is (path : option string) (s : string) : bool :=
  bool_decide (path = Some s).

(** [handle_async] of [app.py]. *)
Definition handle_async (request : IncomingRequest) (response_out : ResponseOutparam)
  : comp :=
  let method := method request in
  let path := path_with_query request in
  if isinstance_MethodGet method && path_is path "/hello"%string then
    let response := {| status_code := 200;
                       headers := [("content-type"%string, b "text/plain")] |} in
    ResponseWrite response (fun response_body =>
      (SetOutparam response_out (Ok response) ;;
       let sink := response_body in
       Send sink (b "Hello, world!") 0 ;;
       SinkClose sink)%comp)
  else if isinstance_MethodGet method then
    Delegate request response_out
  else
    let response := {| status_code := 400; headers := [] |} in
    (SetOutparam response_out (Ok response) ;;
     ResponseWrite response (fun body => Finish body None))%comp.

(** [IncomingHandler.handle] of [app.py]: a new [PollLoop] runs
    [handle_async] to completion. *)
Definition IncomingHandler_handle (fuel : nat) (request : IncomingRequest)
    (response_out : ResponseOutparam) (w : world) : option (outcome * world) :=
  let loop := PollLoop_new in
  run_until_complete fuel (handle_async request response_out) (with_loop loop w).

(** A computation that neither completed nor failed is suspended. *)
Definition suspended (c : comp) : bool :=
  match c with Ret _ | Raise _ => false | _ => true end.

(** The world right after the readiness primitive was called with the
    outstanding pollables of [w]. *)
Definition polled (w : world) : world :=
  let ps := (wakers (the_loop w)).*1 in
  let '(ready, hst) := poll_list ps (the_host w) in
  traced (EvPoll ps ready) (with_host hst w).

(** ** Reading the loop's trace *)

(** The frames that are parked after the events of [t]: a frame enters when
    it suspends and leaves when the readiness primitive reports it ready. *)
Definition waiting_step (ws : list (pollable * frame_id)) (e : event)
  : list (pollable * frame_id) :=
  match e with
  | EvSuspend p f => ws ++ [(p, f)]
  | EvPoll _ ready => (split_ready ready 0 ws).2
  | _ => ws
  end.

Definition waiting_after (t : list event) : list (pollable * frame_id) :=
  foldl waiting_step [] t.

Definition is_poll (e : event) : bool :=
  match e with EvPoll _ _ => true | _ => false end.

(** The frames resumed in [t] before the readiness primitive is called
    again. *)
Fixpoint round_resumes (t : list event) : list (pollable * frame_id) :=
  match t with
  | [] => []
  | EvPoll _ _ :: _ => []
  | EvResume p f :: t' => (p, f) :: round_resumes t'
  | _ :: t' => round_resumes t'
  end.

(** Every call of the readiness primitive had a non-empty list. *)
Definition polls_nonempty (t : list event) : Prop :=
  forall ps ready, EvPoll ps ready ∈ t -> ps <> [].

(** Every resumption of a frame [f] registered with pollable [p] follows a
    call of the readiness primitive, with no other call in between, in which
    [p] was submitted for [f] at an index [k] that the primitive returned. *)
Definition resumed_were_ready (t : list event) : Prop :=
  forall t1 p f t2, t = t1 ++ EvResume p f :: t2 ->
    exists t0 ps ready t' k,
      t1 = t0 ++ EvPoll ps ready :: t' /\
      forallb (fun e => negb (is_poll e)) t' = true /\
      k ∈ ready /\
      waiting_after t0 !! k = Some (p, f) /\
      ps !! k = Some p.

(** In every round in which the host kept its contract, the list submitted
    to the readiness primitive is that of all parked frames in registration
    order, and the frames resumed before the next call are exactly those
    reported ready, in the order of that list. *)
Definition rounds_drained (t : list event) : Prop :=
  forall t1 ps ready t2, t = t1 ++ EvPoll ps ready :: t2 ->
    contract_kept ready ps = true ->
    ps = (waiting_after t1).*1 /\
    round_resumes t2 = (split_ready ready 0 (waiting_after t1)).1.

(** A replay of the trace that keeps the parked frames and the frames still
    due to be resumed in the current round; it stops at the first event that
    breaks the round discipline. *)
Definition audit_step (a : list (pollable * frame_id) * list (pollable * frame_id))
    (e : event) : option (list (pollable * frame_id) * list (pollable * frame_id)) :=
  let '(out, due) := a in
  match e with
  | EvSuspend p f => Some (out ++ [(p, f)], due)
  | EvPoll ps ready =>
      if bool_decide (due = [] /\ ps <> [] /\ ps = out.*1) then
        let '(rs, ns) := split_ready ready 0 out in
        Some (ns, if contract_kept ready ps then rs else [])
      else None
  | EvResume p f =>
      match due with
      | d :: due' => if bool_decide (d = (p, f)) then Some (out, due') else None
      | [] => None
      end
  | EvCaught _ => Some (out, due)
  end.

Fixpoint audit (a : list (pollable * frame_id) * list (pollable * frame_id))
    (t : list event) : option (list (pollable * frame_id) * list (pollable * frame_id)) :=
  match t with
  | [] => Some a
  | e :: t' =>
      match audit_step a e with
      | Some a' => audit a' t'
      | None => None
      end
  end.

Definition quiet_event (e : event) : bool :=
  match e with EvSuspend _ _ | EvCaught _ => true | _ => false end.

Definition suspends_of (t : list event) : list (pollable * frame_id) :=
  omap (fun e => match e with EvSuspend p f => Some (p, f) | _ => None end) t.

(** Driving only suspends frames and catches errors. *)
Definition quiet (w w' : world) : Prop :=
  exists evs,
    forallb quiet_event evs = true /\
    trace (the_loop w') = trace (the_loop w) ++ evs /\
    wakers (the_loop w') = wakers (the_loop w) ++ suspends_of evs.

(** The calls that concern requests, responses and resources, as opposed to
    the read, write and poll traffic. *)
Definition response_call (c : host_call) : bool :=
  match c with
  | CallRead _ _ | CallWrite _ _ | CallPoll _ => false
  | _ => true
  end.

Definition response_calls (w : world) : list host_call :=
  List.filter response_call (calls (the_host w)).

(** Where a send of [buf] on sink [s] stands, when [base] had been observed
    downstream before it began: the bytes accepted so far are a prefix of
    [buf] appended to [base], and all of [buf] once the send has returned. *)
Definition sending (s : handle) (buf base : bytes) (root : comp) (w : world) : Prop :=
  match root with
  | Send s' buf' off | Wait _ (Send s' buf' off) =>
      s' = s /\ buf' = buf /\ downstream (the_host w) !!! s = base ++ take off buf
  | Ret v => v = VNone /\ downstream (the_host w) !!! s = base ++ buf
  | Raise e => exists off, downstream (the_host w) !!! s = base ++ take off buf
  | _ => False
  end.

(** A host whose readiness primitive keeps its contract (section 6): for a
    non-empty list it returns a non-empty set of indices of that list. *)
Definition keeps_contract (w : world) : Prop :=
  forall cs ps, ps <> [] -> contract_kept (poll_answer (the_host w) cs ps) ps = true.

(** The world in which the only parked frame has just been reported ready
    and is about to retry. *)
Definition resumed (p : pollable) (f : frame_id) (w : world) : world :=
  traced (EvResume p f) (set_wakers [] (polled w)).

(** The bytes a listed answer of a write handle lets through. *)
Definition accepts (r : write_result) : nat :=
  match r with WriteReady n => n | _ => 0 end.

Definition is_WriteError (r : write_result) : bool :=
  match r with WriteError _ => true | _ => false end.

Definition accepted_total (script : list write_result) : nat :=
  sum_list (accepts <$> script).

(** An attempt on sink [s] consumed one listed answer and left the sinks,
    the loop and the readiness primitive alone. *)
Definition only_wrote (s : handle) (rest : list write_result) (w w1 : world) : Prop :=
  writable (the_host w1) !!! s = rest /\
  closed_sinks w1 = closed_sinks w /\
  the_loop w1 = the_loop w /\
  poll_answer (the_host w1) = poll_answer (the_host w).

(** ** A caller of Stream (spec, section 4.2) *)

(** Modelled from the spec: the caller of section 4.2, which consumes the
    lazy sequence of chunks by awaiting [next_chunk()] again and again, at
    most [n] times, and keeps what it was given.  It returns the bytes
    together with the end-of-stream value once that was delivered. *)
Fixpoint read_to_end (n : nat) (s : handle) (max_bytes : nat) (acc : bytes) : comp :=
  match n with
  | 0 => Ret (VBytes acc)
  | S n' =>
      Bind (NextChunk s max_bytes)
        (fun v =>
           match v with
           | VChunk bs => read_to_end n' s max_bytes (acc ++ bs)
           | VEof => Ret (VPair (VBytes acc) VEof)
           | _ => Raise (ApplicationError "not a chunk"%string)
           end)
  end.

Definition after_chunk (n' : nat) (s : handle) (max_bytes : nat) (acc : bytes)
  : value -> comp :=
  fun v =>
    match v with
    | VChunk bs => read_to_end n' s max_bytes (acc ++ bs)
    | VEof => Ret (VPair (VBytes acc) VEof)
    | _ => Raise (ApplicationError "not a chunk"%string)
    end.

(** The bytes a listed answer of a read handle carries. *)
Definition chunk_of (r : read_result) : bytes :=
  match r with ReadReady bs => bs | _ => [] end.

(** The bytes the host has available on a handle that will give the
    answers [script]. *)
Definition available (script : list read_result) : bytes :=
  concat (chunk_of <$> script).

(** An answer that is a would-block or carries data. *)
Definition data_or_block (r : read_result) : bool :=
  match r with
  | ReadReady (_ :: _) | ReadWouldBlock _ => true
  | _ => false
  end.

(** The answers at the end of a stream: none left, or an empty read. *)
Definition at_end (tail : list read_result) : bool :=
  match tail with
  | [] | ReadReady [] :: _ => true
  | _ => false
  end.

(** An attempt on stream [s] consumed one listed answer and left the
    streams, the loop and the readiness primitive alone. *)
Definition only_read (s : handle) (rest : list read_result) (w w1 : world) : Prop :=
  readable (the_host w1) !!! s = rest /\
  closed_streams w1 = closed_streams w /\
  the_loop w1 = the_loop w /\
  poll_answer (the_host w1) = poll_answer (the_host w).

(** ** Application code and what it observes *)

(** Code of the application: it may raise any error of its own except the
    internal signal [WouldBlock], in its continuations and handlers too. *)
Inductive application : comp -> Prop :=
| app_Ret v : application (Ret v)
| app_Raise e : is_WouldBlock e = false -> application (Raise e)
| app_Bind c k :
    application c -> (forall v, application (k v)) -> application (Bind c k)
| app_Try c handler :
    application c ->
    (forall e, is_WouldBlock e = false -> application (handler e)) ->
    application (Try c handler)
| app_Both l r : application l -> application r -> application (Both l r)
| app_NextChunk s max_bytes : application (NextChunk s max_bytes)
| app_StreamClose s : application (StreamClose s)
| app_Send s buf offset : application (Send s buf offset)
| app_SinkClose s : application (SinkClose s)
| app_ResponseWrite r k :
    (forall body, application (k body)) -> application (ResponseWrite r k)
| app_SetOutparam out r : application (SetOutparam out r)
| app_Delegate request out : application (Delegate request out)
| app_Finish body trailers : application (Finish body trailers)
| app_Wait f retry : application retry -> application (Wait f retry).

(** No handler of the application was entered with [WouldBlock]. *)
Definition no_WouldBlock_caught (t : list event) : bool :=
  forallb (fun ev => match ev with
                     | EvCaught e => negb (is_WouldBlock e)
                     | _ => true
                     end) t.

Definition absorbing (root : comp) (w : world) : Prop :=
  application root /\ no_WouldBlock_caught (trace (the_loop w)) = true.

(** The chain of awaits around a computation, innermost first. *)
Fixpoint awaiting (ks : list (value -> comp)) (c : comp) : comp :=
  match ks with
  | [] => c
  | k :: ks' => awaiting ks' (Bind c k)
  end.

(** ** The states of the "/hello" branch *)

Definition response_400 : OutgoingResponse :=
  {| status_code := 400; headers := [] |}.

Definition response_200 : OutgoingResponse :=
  {| status_code := 200; headers := [("content-type"%string, b "text/plain")] |}.

Definition hello : bytes := b "Hello, world!".

(** Where the "/hello" branch of [handle_async] stands, for the
    response-outparam [out] and the response body [body], when the host had
    seen the calls [calls0] and [base] downstream of [body] before. *)
Inductive responding (request : IncomingRequest) (out : ResponseOutparam)
    (body : handle) (calls0 : list host_call) (base : bytes)
  : comp -> world -> Prop :=
| responding_send w off :
    response_calls w =
      calls0 ++ [CallResponseWrite response_200 body;
                 CallSetOutparam out (Ok response_200)] ->
    downstream (the_host w) !!! body = base ++ take off hello ->
    body ∉ closed_sinks w ->
    responding request out body calls0 base
      (Bind (Send body hello off) (fun _ => SinkClose body)) w
| responding_parked w off f :
    response_calls w =
      calls0 ++ [CallResponseWrite response_200 body;
                 CallSetOutparam out (Ok response_200)] ->
    downstream (the_host w) !!! body = base ++ take off hello ->
    body ∉ closed_sinks w ->
    responding request out body calls0 base
      (Bind (Wait f (Send body hello off)) (fun _ => SinkClose body)) w
| responding_done w :
    response_calls w =
      calls0 ++ [CallResponseWrite response_200 body;
                 CallSetOutparam out (Ok response_200);
                 CallFinish body None] ->
    downstream (the_host w) !!! body = base ++ hello ->
    body ∈ closed_sinks w ->
    responding request out body calls0 base (Ret VNone) w
| responding_failed w e off :
    response_calls w =
      calls0 ++ [CallResponseWrite response_200 body;
                 CallSetOutparam out (Ok response_200)] ->
    downstream (the_host w) !!! body = base ++ take off hello ->
    responding request out body calls0 base (Raise e) w.

(** How a run ended, for a property [I] of the computation and the world
    that the run maintains. *)
Definition ends_in (I : comp -> world -> Prop) (o : outcome) (w' : world) : Prop :=
  exists root',
    I root' w' /\
    match o with
    | Completed v => root' = Ret v
    | Fail e => root' = Raise e \/
                (e = SchedulingContractViolation /\ suspended root' = true)
    end.

(** The loop's trace replays without fault, ending with the loop's wakers
    parked and [due] still to resume. *)
Definition in_round (w : world) (due : list (pollable * frame_id)) : Prop :=
  audit ([], []) (trace (the_loop w)) = Some (wakers (the_loop w), due).

(** The continuation of the send in [handle_async]: [sink.close()]. *)
Definition then_close (s : handle) : value -> comp := fun _ => SinkClose s.

(** What is closed in [w] is closed in [w']. *)
Definition closed_le (w w' : world) : Prop :=
  closed_streams w ⊆ closed_streams w' /\ closed_sinks w ⊆ closed_sinks w'.

(** The lists with which the readiness primitive was called, in order. *)
Definition polls_made (h : host) : list (list pollable) :=
  omap (fun c => match c with CallPoll ps => Some ps | _ => None end) (calls h).

(** Since [w], the readiness primitive was called only with non-empty
    lists. *)
Definition polled_nonempty_since (w w' : world) : Prop :=
  exists new,
    polls_made (the_host w') = polls_made (the_host w) ++ new /\
    Forall (fun ps => ps <> []) new.

(** ** Fixed values and sample inputs *)

Definition request_post : IncomingRequest :=
  {| request_id := 0; method := MethodPost; path_with_query := Some "/upload"%string |}.

Definition host_idle : host :=
  {| readable := ∅; writable := ∅; downstream := ∅;
     poll_answer := fun _ _ => []; next_handle := 0; calls := [] |}.

Definition world_of (hst : host) : world :=
  {| the_host := hst; closed_streams := ∅; closed_sinks := ∅;
     the_loop := PollLoop_new |}.

Definition request_get_index : IncomingRequest :=
  {| request_id := 0; method := MethodGet; path_with_query := Some "/index.html"%string |}.

Definition host_reading : host :=
  {| readable := {[ 7 := [ReadReady (b "ab"); ReadWouldBlock 100; ReadReady (b "cd")] ]};
     writable := {[ 3 := [WriteReady 5; WriteWouldBlock 200; WriteReady 3; WriteReady 100] ]};
     downstream := ∅;
     poll_answer := fun _ _ => [0]; next_handle := 0; calls := [] |}.

Definition world_after (r : option (comp * world)) (w : world) : world :=
  match r with Some (_, w') => w' | None => w end.

Definition world_stream_closed : world :=
  world_after (drive 1 (StreamClose 7) (world_of host_reading)) (world_of host_reading).

Definition world_sink_closed : world :=
  world_after (drive 1 (SinkClose 3) (world_of host_reading)) (world_of host_reading).

Definition host_stalled : host :=
  {| readable := {[ 7 := [ReadWouldBlock 100] ]}; writable := ∅; downstream := ∅;
     poll_answer := fun _ _ => []; next_handle := 0; calls := [] |}.

Definition guarded_read : comp :=
  Try (NextChunk 7 10) (fun _ => Ret VNone).

Definition world_stalled : world :=
  world_after (drive 2 guarded_read (world_of host_stalled)) (world_of host_stalled).

(** A host on which a read and a write block once each and are then
    reported ready together. *)
Definition host_both : host :=
  {| readable := {[ 7 := [ReadReady (b "ab"); ReadWouldBlock 100; ReadReady (b "cd")] ]};
     writable := {[ 3 := [WriteReady 5; WriteWouldBlock 200; WriteReady 3; WriteReady 100] ]};
     downstream := ∅;
     poll_answer := fun _ ps => seq 0 (length ps); next_handle := 0; calls := [] |}.

Definition read_and_send : comp :=
  Both (Bind (NextChunk 7 10) (fun _ => NextChunk 7 10))
       (Send 3 (b "Hello, world!") 0).

Definition outcome_after (r : option (outcome * world)) : option outcome :=
  match r with Some (o, _) => Some o | None => None end.

Definition world_at_end (r : option (outcome * world)) (w : world) : world :=
  match r with Some (_, w') => w' | None => w end.

Definition world_both_done : world :=
  world_at_end (run_until_complete 10 read_and_send (world_of host_both))
    (world_of host_both).

Definition world_sent : world :=
  world_at_end (run_until_complete 6 (Send 3 hello 0) (world_of host_both))
    (world_of host_both).

Definition script_reading : list read_result :=
  [ReadReady (b "ab"); ReadWouldBlock 100; ReadReady (b "cd")].

(** A host on which one read blocks and then breaks, and another breaks at
    once. *)
Definition host_failing : host :=
  {| readable := {[ 7 := [ReadWouldBlock 100; ReadError "reset"%string];
                    9 := [ReadError "reset"%string] ]};
     writable := ∅; downstream := ∅;
     poll_answer := fun _ ps => seq 0 (length ps); next_handle := 0; calls := [] |}.

Definition reraising_reads : comp :=
  Try (Bind (NextChunk 7 10) (fun _ => NextChunk 9 10)) (fun e => Raise e).

Definition world_reraised : world :=
  world_at_end (run_until_complete 6 reraising_reads (world_of host_failing))
    (world_of host_failing).

Definition world_read_parked : world :=
  world_after (drive 1 (NextChunk 7 10) (world_of host_failing)) (world_of host_failing).

Definition world_read_broke : world :=
  world_after (drive 1 (NextChunk 7 10) (resumed 100 0 world_read_parked))
    (resumed 100 0 world_read_parked).

Definition world_read_broke_at_once : world :=
  world_after (drive 1 (NextChunk 9 10) (world_of host_failing)) (world_of host_failing).

Definition request_hello : IncomingRequest :=
  {| request_id := 0; method := MethodGet; path_with_query := Some "/hello"%string |}.

(** A host that takes the bytes of the response body, the handle it gives
    out next, in three pieces with a would-block in between. *)
Definition host_serving : host :=
  {| readable := ∅;
     writable := {[ 0 := [WriteReady 5; WriteWouldBlock 200; WriteReady 3; WriteReady 100] ]};
     downstream := ∅;
     poll_answer := fun _ ps => seq 0 (length ps); next_handle := 0; calls := [] |}.

Definition world_served : world :=
  world_at_end (IncomingHandler_handle 11 request_hello 1 (world_of host_serving))
    (world_of host_serving).

(** ** More about the handler *)

(** The calls by which the handler decides who answers the request:
    [ResponseOutparam.set] or the hand-over to the fileserver. *)
Definition decides (c : host_call) : bool :=
  match c with
  | CallSetOutparam _ _ | CallDelegate _ _ => true
  | _ => false
  end.

Definition decisions (w : world) : list host_call :=
  List.filter decides (calls (the_host w)).

Definition request_post_hello : IncomingRequest :=
  {| request_id := 0; method := MethodPost; path_with_query := Some "/hello"%string |}.

(** The world after the fallback branch of [handle_async]. *)
Definition refused (response_out : ResponseOutparam) (w : world) : world :=
  with_host
    (called (CallFinish (next_handle (the_host w)) None)
       (called (CallResponseWrite response_400 (next_handle (the_host w)))
          (set_next_handle (S (next_handle (the_host w)))
             (called (CallSetOutparam response_out (Ok response_400)) (the_host w)))))
    (with_loop PollLoop_new w).

(** The world after the delegating branch of [handle_async]. *)
Definition delegated (request : IncomingRequest) (response_out : ResponseOutparam)
    (w : world) : world :=
  with_host (called (CallDelegate request response_out) (the_host w))
    (with_loop PollLoop_new w).

(** The decision [handle_async] takes for a request. *)
Definition decision_for (request : IncomingRequest) (response_out : ResponseOutparam)
  : host_call :=
  if isinstance_MethodGet (method request) then
    if path_is (path_with_query request) "/hello"
    then CallSetOutparam response_out (Ok response_200)
    else CallDelegate request response_out
  else CallSetOutparam response_out (Ok response_400).

Definition is_CallPoll (c : host_call) : bool :=
  match c with CallPoll _ => true | _ => false end.

(** The calls the program made to the host, the calls of the readiness
    primitive left out. *)
Definition own_calls (w : world) : list host_call :=
  List.filter (fun c => negb (is_CallPoll c)) (calls (the_host w)).

(** A write of what is left of [buf] to [s]. *)
Definition writes_rest (s : handle) (buf : bytes) (c : host_call) : Prop :=
  exists k, c = CallWrite s (drop k buf).

(** Where the "/hello" branch stands, seen in the calls it made: after the
    calls [calls0] made before it, the response was created and set, and
    then only what is left of the greeting was written to [body]; the body
    is finished last, once the send returned. *)
Inductive logging (out : ResponseOutparam) (body : handle) (calls0 : list host_call)
  : comp -> world -> Prop :=
| logging_send w off writes :
    own_calls w =
      calls0 ++ [CallResponseWrite response_200 body;
                 CallSetOutparam out (Ok response_200)] ++ writes ->
    Forall (writes_rest body hello) writes ->
    body ∉ closed_sinks w ->
    logging out body calls0 (Bind (Send body hello off) (fun _ => SinkClose body)) w
| logging_parked w off f writes :
    own_calls w =
      calls0 ++ [CallResponseWrite response_200 body;
                 CallSetOutparam out (Ok response_200)] ++ writes ->
    Forall (writes_rest body hello) writes ->
    body ∉ closed_sinks w ->
    logging out body calls0 (Bind (Wait f (Send body hello off)) (fun _ => SinkClose body)) w
| logging_done w writes :
    own_calls w =
      calls0 ++ [CallResponseWrite response_200 body;
                 CallSetOutparam out (Ok response_200)] ++ writes ++
        [CallFinish body None] ->
    Forall (writes_rest body hello) writes ->
    logging out body calls0 (Ret VNone) w
| logging_failed w e writes :
    own_calls w =
      calls0 ++ [CallResponseWrite response_200 body;
                 CallSetOutparam out (Ok response_200)] ++ writes ->
    Forall (writes_rest body hello) writes ->
    logging out body calls0 (Raise e) w.

(** A host that takes five bytes of the response body, blocks once and then
    reports a broken connection. *)
Definition host_breaking : host :=
  {| readable := ∅;
     writable := {[ 0 := [WriteReady 5; WriteWouldBlock 200; WriteError "broken pipe"%string] ]};
     downstream := ∅;
     poll_answer := fun _ ps => seq 0 (length ps); next_handle := 0; calls := [] |}.

(** * Properties *)

(** ** The routing of [handle_async] *)

Lemma isinstance_MethodGet_false m : isinstance_MethodGet m = false <-> m <> MethodGet.
Proof. destruct m; simpl; split; congruence. Qed.

Lemma path_is_false path s : path <> Some s -> path_is path s = false.
Proof. intros H. unfold path_is. by rewrite bool_decide_eq_false. Qed.

Lemma path_is_true s : path_is (Some s) s = true.
Proof. unfold path_is. by rewrite bool_decide_eq_true. Qed.

(** C7: a request whose method is not GET and whose path is not "/hello" takes
    the fallback branch: the handler returns normally, having set the fixed
    response 400 with no headers on the response-outparam and finished its
    body, without ever suspending. *)
Theorem fallback_returns_400 (request : IncomingRequest) (response_out : ResponseOutparam)
    (w : world) (fuel : nat) :
  method request <> MethodGet ->
  path_with_query request <> Some "/hello"%string ->
  5 <= fuel ->
  exists w',
    IncomingHandler_handle fuel request response_out w = Some (Completed VNone, w') /\
    calls (the_host w') =
      calls (the_host w) ++
        [CallSetOutparam response_out (Ok response_400);
         CallResponseWrite response_400 (next_handle (the_host w));
         CallFinish (next_handle (the_host w)) None] /\
    trace (the_loop w') = [].
Proof.
  intros Hm _ Hfuel.
  apply isinstance_MethodGet_false in Hm.
  do 5 (destruct fuel as [|fuel]; [lia|]).
  unfold IncomingHandler_handle, handle_async. rewrite Hm. simpl.
  eexists. split; [reflexivity|]. simpl.
  split; [|reflexivity].
  by rewrite <- !app_assoc.
Qed.

Lemma fallback_returns_400_witness :
  exists w',
    IncomingHandler_handle 5 request_post 1 (world_of host_idle) = Some (Completed VNone, w') /\
    calls (the_host w') =
      calls (the_host (world_of host_idle)) ++
        [CallSetOutparam 1 (Ok response_400);
         CallResponseWrite response_400 (next_handle (the_host (world_of host_idle)));
         CallFinish (next_handle (the_host (world_of host_idle))) None] /\
    trace (the_loop w') = [].
Proof.
  apply (fallback_returns_400 request_post 1 (world_of host_idle) 5).
  - simpl. discriminate.
  - simpl. discriminate.
  - lia.
Defined.

(** C10: a GET request for a path other than "/hello" is handed, together
    with the response-outparam, to the fileserver component's incoming
    handler; that is the only call the handler makes, so it sets no response
    of its own. *)
Theorem get_other_path_delegates (request : IncomingRequest) (response_out : ResponseOutparam)
    (w : world) (fuel : nat) :
  method request = MethodGet ->
  path_with_query request <> Some "/hello"%string ->
  2 <= fuel ->
  exists w',
    IncomingHandler_handle fuel request response_out w = Some (Completed VNone, w') /\
    calls (the_host w') = calls (the_host w) ++ [CallDelegate request response_out] /\
    trace (the_loop w') = [].
Proof.
  intros Hm Hp Hfuel.
  do 2 (destruct fuel as [|fuel]; [lia|]).
  unfold IncomingHandler_handle, handle_async.
  rewrite Hm, (path_is_false _ _ Hp). simpl.
  eexists. split; [reflexivity|]. simpl. done.
Qed.

Lemma get_other_path_delegates_witness :
  exists w',
    IncomingHandler_handle 2 request_get_index 1 (world_of host_idle) = Some (Completed VNone, w') /\
    calls (the_host w') =
      calls (the_host (world_of host_idle)) ++ [CallDelegate request_get_index 1] /\
    trace (the_loop w') = [].
Proof.
  apply (get_other_path_delegates request_get_index 1 (world_of host_idle) 2).
  - reflexivity.
  - simpl. discriminate.
  - lia.
Defined.

(** ** Closed streams and sinks stay closed *)

Lemma closed_le_refl w : closed_le w w.
Proof. by split. Qed.

Lemma closed_le_trans w1 w2 w3 : closed_le w1 w2 -> closed_le w2 w3 -> closed_le w1 w3.
Proof. intros [? ?] [? ?]. split; set_solver. Qed.

Lemma Stream_attempt_closed_le s n w a w' :
  Stream_attempt s n w = (a, w') -> closed_le w w'.
Proof.
  unfold Stream_attempt, non_blocking_read. intros H.
  case_bool_decide; [inversion H; apply closed_le_refl|].
  repeat case_match; simplify_eq; split; simpl; set_solver.
Qed.

Lemma Stream_close_closed_le s w a w' :
  Stream_close s w = (a, w') -> closed_le w w'.
Proof.
  unfold Stream_close. intros H.
  case_bool_decide; simplify_eq; split; simpl; set_solver.
Qed.

Lemma Sink_attempt_closed_le s buf off w a w' :
  Sink_attempt s buf off w = (a, w') -> closed_le w w'.
Proof.
  unfold Sink_attempt, non_blocking_write. intros H.
  case_bool_decide; [inversion H; apply closed_le_refl|].
  repeat case_match; simplify_eq; split; simpl; set_solver.
Qed.

Lemma Sink_close_closed_le s w a w' :
  Sink_close s w = (a, w') -> closed_le w w'.
Proof.
  unfold Sink_close. intros H.
  case_bool_decide; simplify_eq; split; simpl; set_solver.
Qed.

Lemma drive_closed_le fuel : forall c w c' w',
  drive fuel c w = Some (c', w') -> closed_le w w'.
Proof.
  induction fuel as [|fuel IH]; intros c w c' w' H; [discriminate|].
  destruct c; simpl in H.
  - simplify_eq. apply closed_le_refl.
  - simplify_eq. apply closed_le_refl.
  - destruct (drive fuel c w) as [[c1 w1]|] eqn:E1; [|discriminate].
    apply IH in E1.
    destruct c1; simplify_eq; try done;
      eapply closed_le_trans; eauto.
  - destruct (drive fuel c w) as [[c1 w1]|] eqn:E1; [|discriminate].
    apply IH in E1.
    destruct c1; simplify_eq; try done.
    apply IH in H. eapply closed_le_trans; [exact E1|].
    eapply closed_le_trans; [|exact H]. by split.
  - destruct (drive fuel c1 w) as [[l1 w1]|] eqn:E1; [|discriminate].
    apply IH in E1.
    assert (forall r, match drive fuel c2 w1 with
                 | Some (Raise e, w2) => Some (Raise e, w2)
                 | Some (r', w2) => r r' w2
                 | None => None
                 end = Some (c', w') ->
               (forall r' w2, r r' w2 = Some (c', w') -> w2 = w') ->
               closed_le w w') as Hr.
    { intros r Hm Hw.
      destruct (drive fuel c2 w1) as [[r1 w2]|] eqn:E2; [|discriminate].
      apply IH in E2.
      assert (w2 = w') as ->.
      { destruct r1; simplify_eq; eauto. }
      eapply closed_le_trans; eauto. }
    destruct l1; simplify_eq; try done;
      (eapply Hr; [exact H|]; intros r' w2 Hx;
       destruct r'; simplify_eq; done).
  - destruct (Stream_attempt s max_bytes w) as [a w1] eqn:E1.
    apply Stream_attempt_closed_le in E1.
    destruct a; simplify_eq; try done.
    + unfold register in H. simplify_eq. destruct E1. by split.
    + apply IH in H. eapply closed_le_trans; eauto.
  - destruct (Stream_close s w) as [a w1] eqn:E1.
    apply Stream_close_closed_le in E1.
    destruct a; simplify_eq; done.
  - destruct (Sink_attempt s buf offset w) as [a w1] eqn:E1.
    apply Sink_attempt_closed_le in E1.
    destruct a; simplify_eq; try done.
    + unfold register in H. simplify_eq. destruct E1. by split.
    + apply IH in H. eapply closed_le_trans; eauto.
  - destruct (Sink_close s w) as [a w1] eqn:E1.
    apply Sink_close_closed_le in E1.
    destruct a; simplify_eq; done.
  - apply IH in H. destruct H. by split.
  - simplify_eq. by split.
  - simplify_eq. by split.
  - simplify_eq. by split.
  - simplify_eq. apply closed_le_refl.
Qed.



(** ** The readiness primitive breaking its contract *)

Lemma run_until_complete_suspended fuel root w root1 w1 :
  drive fuel root w = Some (root1, w1) ->
  suspended root1 = true ->
  run_until_complete (S fuel) root w =
    let ws := wakers (the_loop w1) in
    let ps := ws.*1 in
    match ps with
    | [] => None
    | _ =>
        let '(ready, hst) := poll_list ps (the_host w1) in
        let w2 := traced (EvPoll ps ready) (with_host hst w1) in
        if contract_kept ready ps then
          let '(rs, ns) := split_ready ready 0 ws in
          match resume_all fuel rs root1 (set_wakers ns w2) with
          | None => None
          | Some (root2, w3) => run_until_complete fuel root2 w3
          end
        else Some (Fail SchedulingContractViolation, w2)
    end.
Proof.
  intros Hd Hs. simpl. rewrite Hd.
  destruct root1; try discriminate; reflexivity.
Qed.



(** ** What driving a computation can change *)

Lemma polls_made_called c h :
  polls_made (called c h) =
    polls_made h ++ match c with CallPoll ps => [ps] | _ => [] end.
Proof. unfold polls_made. cbn. rewrite omap_app. by destruct c. Qed.

Lemma polls_made_read s n h : polls_made (non_blocking_read s n h).2 = polls_made h.
Proof.
  unfold non_blocking_read. cbn.
  destruct (readable h !!! s); cbn;
    change (polls_made (called (CallRead s n) h) = polls_made h);
    by rewrite polls_made_called, app_nil_r.
Qed.

Lemma polls_made_write s bs h : polls_made (non_blocking_write s bs h).2 = polls_made h.
Proof.
  unfold non_blocking_write. cbn.
  destruct (writable h !!! s) as [|[] ?]; cbn;
    change (polls_made (called (CallWrite s bs) h) = polls_made h);
    by rewrite polls_made_called, app_nil_r.
Qed.

Section DrivePreserves.
Variable R : world -> world -> Prop.
Hypothesis R_refl : forall w, R w w.
Hypothesis R_trans : forall w1 w2 w3, R w1 w2 -> R w2 w3 -> R w1 w3.
Hypothesis R_host : forall h w,
  polls_made h = polls_made (the_host w) -> R w (with_host h w).
Hypothesis R_close_stream : forall s w, R w (close_stream s w).
Hypothesis R_close_sink : forall s w, R w (close_sink s w).
Hypothesis R_register : forall p c w, R w (register p c w).2.
Hypothesis R_caught : forall e w, R w (traced (EvCaught e) w).

Lemma Stream_attempt_preserves s n w a w' :
  Stream_attempt s n w = (a, w') -> R w w'.
Proof using R R_refl R_trans R_host R_close_stream.
  unfold Stream_attempt. intros H.
  case_bool_decide; [by simplify_eq|].
  pose proof (polls_made_read s n (the_host w)) as Hp.
  destruct (non_blocking_read s n (the_host w)) as [r hst]. cbn in Hp.
  repeat case_match; simplify_eq; eauto.
Qed.

Lemma Stream_close_preserves s w a w' :
  Stream_close s w = (a, w') -> R w w'.
Proof using R R_refl R_trans R_host R_close_stream.
  unfold Stream_close. intros H.
  assert (polls_made (called (CallDropInput s) (the_host w)) = polls_made (the_host w))
    as Hp by (by rewrite polls_made_called, app_nil_r).
  case_bool_decide; simplify_eq; eauto.
Qed.

Lemma Sink_attempt_preserves s buf off w a w' :
  Sink_attempt s buf off w = (a, w') -> R w w'.
Proof using R R_refl R_trans R_host.
  unfold Sink_attempt. intros H.
  case_bool_decide; [by simplify_eq|].
  pose proof (polls_made_write s (drop off buf) (the_host w)) as Hp.
  destruct (non_blocking_write s (drop off buf) (the_host w)) as [r hst]. cbn in Hp.
  repeat case_match; simplify_eq; eauto.
Qed.

Lemma Sink_close_preserves s w a w' :
  Sink_close s w = (a, w') -> R w w'.
Proof using R R_refl R_trans R_host R_close_sink.
  unfold Sink_close. intros H.
  assert (polls_made (called (CallFinish s None) (the_host w)) = polls_made (the_host w))
    as Hp by (by rewrite polls_made_called, app_nil_r).
  case_bool_decide; simplify_eq; eauto.
Qed.

Lemma drive_preserves fuel : forall c w c' w',
  drive fuel c w = Some (c', w') -> R w w'.
Proof using All.
  induction fuel as [|fuel IH]; intros c w c' w' H; [discriminate|].
  destruct c; simpl in H.
  - by simplify_eq.
  - by simplify_eq.
  - destruct (drive fuel c w) as [[c1 w1]|] eqn:E1; [|discriminate].
    apply IH in E1.
    destruct c1; simplify_eq; eauto.
  - destruct (drive fuel c w) as [[c1 w1]|] eqn:E1; [|discriminate].
    apply IH in E1.
    destruct c1; simplify_eq; eauto.
  - destruct (drive fuel c1 w) as [[l1 w1]|] eqn:E1; [|discriminate].
    apply IH in E1.
    assert (forall r, match drive fuel c2 w1 with
                 | Some (Raise e, w2) => Some (Raise e, w2)
                 | Some (r', w2) => r r' w2
                 | None => None
                 end = Some (c', w') ->
               (forall r' w2, r r' w2 = Some (c', w') -> w2 = w') ->
               R w w') as Hr.
    { intros r Hm Hw.
      destruct (drive fuel c2 w1) as [[r1 w2]|] eqn:E2; [|discriminate].
      apply IH in E2.
      assert (w2 = w') as ->.
      { destruct r1; simplify_eq; eauto. }
      exact (R_trans _ _ _ (R_trans _ _ _ (R_refl w) E1) E2). }
    destruct l1;
      first [ by simplify_eq
            | eapply Hr; [exact H|]; intros r' w2 Hx;
              destruct r'; simplify_eq; done ].
  - destruct (Stream_attempt s max_bytes w) as [a w1] eqn:E1.
    apply Stream_attempt_preserves in E1.
    destruct a.
    + by simplify_eq.
    + injection H as <- <-. eapply R_trans; [exact E1|].
      apply (R_register p (NextChunk s max_bytes) w1).
    + apply IH in H. eauto.
    + by simplify_eq.
  - destruct (Stream_close s w) as [a w1] eqn:E1.
    apply Stream_close_preserves in E1.
    destruct a; simplify_eq; done.
  - destruct (Sink_attempt s buf offset w) as [a w1] eqn:E1.
    apply Sink_attempt_preserves in E1.
    destruct a.
    + by simplify_eq.
    + injection H as <- <-. eapply R_trans; [exact E1|].
      apply (R_register p (Send s buf offset) w1).
    + apply IH in H. eauto.
    + by simplify_eq.
  - destruct (Sink_close s w) as [a w1] eqn:E1.
    apply Sink_close_preserves in E1.
    destruct a; simplify_eq; done.
  - apply IH in H. eapply R_trans; [|exact H]. apply R_host.
    by rewrite polls_made_called, app_nil_r.
  - simplify_eq. apply R_host. by rewrite polls_made_called, app_nil_r.
  - simplify_eq. apply R_host. by rewrite polls_made_called, app_nil_r.
  - simplify_eq. apply R_host. by rewrite polls_made_called, app_nil_r.
  - by simplify_eq.
Qed.
End DrivePreserves.

Lemma drive_polls_made fuel c w c' w' :
  drive fuel c w = Some (c', w') ->
  polls_made (the_host w') = polls_made (the_host w).
Proof.
  apply (drive_preserves
           (fun w w' => polls_made (the_host w') = polls_made (the_host w))).
  - done.
  - intros w1 w2 w3 H1 H2. by rewrite H2.
  - done.
  - done.
  - done.
  - done.
  - done.
Qed.

(** ** The round discipline of the loop *)

Lemma quiet_refl w : quiet w w.
Proof. exists []. by rewrite !app_nil_r. Qed.

Lemma suspends_of_app t1 t2 : suspends_of (t1 ++ t2) = suspends_of t1 ++ suspends_of t2.
Proof. unfold suspends_of. apply omap_app. Qed.

Lemma quiet_trans w1 w2 w3 : quiet w1 w2 -> quiet w2 w3 -> quiet w1 w3.
Proof.
  intros (e1 & Q1 & T1 & W1) (e2 & Q2 & T2 & W2).
  exists (e1 ++ e2). rewrite forallb_app, Q1, Q2, T2, T1, W2, W1, suspends_of_app.
  by rewrite !app_assoc.
Qed.

Lemma quiet_same_loop w w' : the_loop w' = the_loop w -> quiet w w'.
Proof. intros E. exists []. by rewrite E, !app_nil_r. Qed.

Lemma drive_quiet fuel c w c' w' :
  drive fuel c w = Some (c', w') -> quiet w w'.
Proof.
  apply (drive_preserves quiet quiet_refl quiet_trans).
  - intros. by apply quiet_same_loop.
  - intros. by apply quiet_same_loop.
  - intros. by apply quiet_same_loop.
  - intros p k w0. exists [EvSuspend p (next_frame (the_loop w0))]. done.
  - intros e w0. exists [EvCaught e]. simpl. by rewrite app_nil_r.
Qed.

Lemma audit_app a t1 t2 :
  audit a (t1 ++ t2) = audit a t1 ≫= fun a' => audit a' t2.
Proof.
  revert a. induction t1 as [|e t1 IH]; intros a; simpl; [done|].
  destruct (audit_step a e); simpl; auto.
Qed.

Lemma audit_quiet out due evs :
  forallb quiet_event evs = true ->
  audit (out, due) evs = Some (out ++ suspends_of evs, due).
Proof.
  revert out. induction evs as [|e evs IH]; intros out Hq; simpl.
  - by rewrite app_nil_r.
  - simpl in Hq. apply andb_true_iff in Hq as [He Hq].
    destruct e; try discriminate; simpl.
    + rewrite IH by done. by rewrite <- app_assoc.
    + by rewrite IH.
Qed.

Lemma quiet_in_round w w' due : quiet w w' -> in_round w due -> in_round w' due.
Proof.
  intros (evs & Q & T & W) H. unfold in_round in *.
  rewrite T, audit_app, H. simpl. rewrite W. by apply audit_quiet.
Qed.

Lemma resume_all_in_round fuel : forall frames root w root' w',
  in_round w frames ->
  resume_all fuel frames root w = Some (root', w') ->
  in_round w' [].
Proof.
  induction frames as [|[p f] frames IH]; intros root w root' w' Hin H; simpl in H.
  - by simplify_eq.
  - destruct (drive fuel (wake f root) (traced (EvResume p f) w)) as [[r1 w1]|] eqn:E;
      [|discriminate].
    apply drive_quiet in E.
    eapply IH; [|exact H].
    eapply quiet_in_round; [exact E|].
    unfold in_round in *. simpl. rewrite audit_app, Hin. simpl.
    by rewrite bool_decide_eq_true_2.
Qed.

Lemma run_until_complete_audit fuel : forall root w o w',
  in_round w [] ->
  run_until_complete fuel root w = Some (o, w') ->
  exists out, audit ([], []) (trace (the_loop w')) = Some (out, []).
Proof.
  induction fuel as [|fuel IH]; intros root w o w' Hin H; [discriminate|].
  destruct (drive fuel root w) as [[root1 w1]|] eqn:E;
    [|simpl in H; rewrite E in H; discriminate].
  pose proof (quiet_in_round _ _ _ (drive_quiet _ _ _ _ _ E) Hin) as Hin1.
  assert (suspended root1 = true ->
          exists out, audit ([], []) (trace (the_loop w')) = Some (out, [])) as Hs.
  { intros Hsusp.
    rewrite (run_until_complete_suspended _ _ _ _ _ E Hsusp) in H.
    simpl in H.
    destruct ((wakers (the_loop w1)).*1) as [|p0 ps0] eqn:Eps; [discriminate|].
    rewrite <- Eps in H.
    set (ps := (wakers (the_loop w1)).*1) in *.
    set (ready := poll_answer (the_host w1) (calls (the_host w1)) ps) in *.
    assert (ps <> []) as Hne by (rewrite Eps; done).
    assert (audit ([], []) (trace (the_loop w1) ++ [EvPoll ps ready]) =
            Some ((split_ready ready 0 (wakers (the_loop w1))).2,
                  if contract_kept ready ps
                  then (split_ready ready 0 (wakers (the_loop w1))).1 else [])) as Ha.
    { unfold in_round in Hin1. rewrite audit_app, Hin1. simpl.
      rewrite bool_decide_eq_true_2 by done.
      by destruct (split_ready ready 0 (wakers (the_loop w1))). }
    destruct (contract_kept ready ps) eqn:Ek.
    - destruct (split_ready ready 0 (wakers (the_loop w1))) as [rs ns] eqn:Es.
      match type of H with
      | match resume_all _ _ _ ?w2 with _ => _ end = _ =>
          destruct (resume_all fuel rs root1 w2) as [[root2 w3]|] eqn:Er;
            [|discriminate]
      end.
      eapply IH; [|exact H].
      eapply resume_all_in_round; [|exact Er].
      unfold in_round. simpl. exact Ha.
    - simplify_eq. simpl. eauto. }
  destruct root1; try (apply Hs; reflexivity).
  - simpl in H. rewrite E in H. simplify_eq. eauto.
  - simpl in H. rewrite E in H. simplify_eq. eauto.
Qed.

Lemma audit_polls_nonempty t : forall a a',
  audit a t = Some a' -> polls_nonempty t.
Proof.
  induction t as [|e t IH]; intros a a' H ps ready Hin.
  - by apply elem_of_nil in Hin.
  - simpl in H. destruct (audit_step a e) as [a1|] eqn:E; [|discriminate].
    apply elem_of_cons in Hin as [Heq|Hin]; [subst e|by eapply IH].
    destruct a as [out due]. simpl in E.
    case_bool_decide; [|discriminate]. tauto.
Qed.

Lemma audit_waiting t : forall out due out' due',
  audit (out, due) t = Some (out', due') -> out' = foldl waiting_step out t.
Proof.
  induction t as [|e t IH]; intros out due out' due' H; simpl in H.
  - by simplify_eq.
  - destruct e; simpl in *.
    + eauto.
    + case_bool_decide; [|discriminate].
      destruct (split_ready ready 0 out) as [rs ns]. simpl. eauto.
    + destruct due as [|d due]; [discriminate|].
      case_bool_decide; [|discriminate]. eauto.
    + eauto.
Qed.

Lemma split_ready_elem ready wk : forall ws i,
  wk ∈ (split_ready ready i ws).1 ->
  exists k, (i + k) ∈ ready /\ ws !! k = Some wk.
Proof.
  induction ws as [|w0 ws IH]; intros i H; simpl in H.
  - by apply elem_of_nil in H.
  - destruct (split_ready ready (S i) ws) as [rs ns] eqn:E.
    specialize (IH (S i)). rewrite E in IH. simpl in IH.
    unfold is_ready in H. case_bool_decide; simpl in H.
    + apply elem_of_cons in H as [->|H].
      * exists 0. by rewrite Nat.add_0_r.
      * destruct (IH H) as (k & Hk & Hl). exists (S k).
        by rewrite Nat.add_succ_r.
    + destruct (IH H) as (k & Hk & Hl). exists (S k).
      by rewrite Nat.add_succ_r.
Qed.

Lemma audit_due_were_ready t : forall out due p f,
  audit ([], []) t = Some (out, due) ->
  (p, f) ∈ due ->
  exists t0 ps ready t' k,
    t = t0 ++ EvPoll ps ready :: t' /\
    forallb (fun e => negb (is_poll e)) t' = true /\
    k ∈ ready /\
    waiting_after t0 !! k = Some (p, f) /\
    ps !! k = Some p.
Proof.
  induction t as [|e t IH] using rev_ind; intros out due p f H Hin.
  - simpl in H. simplify_eq. by apply elem_of_nil in Hin.
  - rewrite audit_app in H.
    destruct (audit ([], []) t) as [[o d]|] eqn:Et; [|discriminate].
    simpl in H.
    assert ((p, f) ∈ d -> negb (is_poll e) = true ->
            exists t0 ps ready t' k,
              t ++ [e] = t0 ++ EvPoll ps ready :: t' /\
              forallb (fun e => negb (is_poll e)) t' = true /\
              k ∈ ready /\
              waiting_after t0 !! k = Some (p, f) /\
              ps !! k = Some p) as Hold.
    { intros Hd He.
      destruct (IH _ _ _ _ eq_refl Hd) as (t0 & ps & ready & t' & k & -> & Hq & Hk & Hw & Hp).
      exists t0, ps, ready, (t' ++ [e]), k.
      rewrite <- app_assoc. simpl. rewrite forallb_app, Hq. simpl. rewrite He.
      done. }
    destruct e; simpl in H.
    + simplify_eq. by apply Hold.
    + case_bool_decide as Hc; [|discriminate].
      destruct Hc as (-> & Hne & ->).
      destruct (split_ready ready 0 o) as [rs ns] eqn:Es. simplify_eq.
      destruct (contract_kept ready o.*1); [|by apply elem_of_nil in Hin].
      assert ((p, f) ∈ (split_ready ready 0 o).1) as Hin' by (by rewrite Es).
      apply split_ready_elem in Hin' as (k & Hk & Hl).
      exists t, (o.*1), ready, [], k. simpl in Hk.
      repeat split; try done.
      * unfold waiting_after. by rewrite <- (audit_waiting _ _ _ _ _ Et).
      * by rewrite list_lookup_fmap, Hl.
    + destruct d as [|d0 d]; [discriminate|].
      case_bool_decide; [|discriminate]. simplify_eq.
      apply Hold; [|done]. by apply elem_of_cons; right.
    + simplify_eq. by apply Hold.
Qed.

Lemma audit_round_resumes t : forall out due out',
  audit (out, due) t = Some (out', []) -> round_resumes t = due.
Proof.
  induction t as [|e t IH]; intros out due out' H; simpl in H.
  - by simplify_eq.
  - destruct e; simpl in *.
    + eauto.
    + case_bool_decide as Hc; [|discriminate]. by destruct Hc as (-> & _).
    + destruct due as [|d due]; [discriminate|].
      case_bool_decide; [|discriminate]. simplify_eq.
      f_equal. eauto.
    + eauto.
Qed.

Lemma fresh_loop_in_round w : the_loop w = PollLoop_new -> in_round w [].
Proof. intros E. unfold in_round. by rewrite E. Qed.



(** ** An invariant principle for [run_until_complete] *)

Section RunInvariant.
Variable I : comp -> world -> Prop.
Hypothesis I_drive : forall fuel root w root' w',
  I root w -> drive fuel root w = Some (root', w') -> I root' w'.
Hypothesis I_traced : forall root w e,
  quiet_event e = false -> I root w -> I root (traced e w).
Hypothesis I_wakers : forall root w ws, I root w -> I root (set_wakers ws w).
Hypothesis I_poll : forall root w ps,
  ps <> [] -> I root w -> I root (with_host (called (CallPoll ps) (the_host w)) w).
Hypothesis I_wake : forall root w f, I root w -> I (wake f root) w.

Lemma resume_all_invariant fuel : forall frames root w root' w',
  I root w -> resume_all fuel frames root w = Some (root', w') -> I root' w'.
Proof using I I_drive I_traced I_wake.
  induction frames as [|[p f] frames IH]; intros root w root' w' Hi H; simpl in H.
  - by simplify_eq.
  - destruct (drive fuel (wake f root) (traced (EvResume p f) w)) as [[r1 w1]|] eqn:E;
      [|discriminate].
    eapply IH; [|exact H].
    eapply I_drive; [|exact E].
    by apply I_traced, I_wake, Hi.
Qed.

Lemma run_until_complete_round fuel root w o w' root1 w1 :
  drive fuel root w = Some (root1, w1) ->
  I root1 w1 ->
  (forall root2 w3, I root2 w3 ->
     run_until_complete fuel root2 w3 = Some (o, w') -> ends_in I o w') ->
  run_until_complete (S fuel) root w = Some (o, w') ->
  ends_in I o w'.
Proof using I I_drive I_traced I_wakers I_poll I_wake.
  intros E Hi1 IH H.
  destruct (suspended root1) eqn:Hsusp.
  - rewrite (run_until_complete_suspended _ _ _ _ _ E Hsusp) in H.
    simpl in H.
    destruct ((wakers (the_loop w1)).*1) as [|p0 ps0] eqn:Eps; [discriminate|].
    rewrite <- Eps in H.
    set (ps := (wakers (the_loop w1)).*1) in *.
    set (ready := poll_answer (the_host w1) (calls (the_host w1)) ps) in *.
    destruct (contract_kept ready ps).
    + destruct (split_ready ready 0 (wakers (the_loop w1))) as [rs ns].
      match type of H with
      | match resume_all _ _ _ ?w2 with _ => _ end = _ =>
          destruct (resume_all fuel rs root1 w2) as [[root2 w3]|] eqn:Er;
            [|discriminate]
      end.
      eapply IH; [|exact H].
      eapply resume_all_invariant; [|exact Er].
      apply I_wakers, I_traced, I_poll, Hi1; [done|by rewrite Eps].
    + simplify_eq. exists root1. split; [|by right].
      apply I_traced, I_poll, Hi1; [done|by rewrite Eps].
  - simpl in H. rewrite E in H.
    destruct root1; try discriminate; simplify_eq.
    + exists (Ret v). by split.
    + exists (Raise e). split; [done|by left].
Qed.

Lemma run_until_complete_invariant fuel : forall root w o w',
  I root w ->
  run_until_complete fuel root w = Some (o, w') ->
  ends_in I o w'.
Proof using All.
  induction fuel as [|fuel IH]; intros root w o w' Hi H; [discriminate|].
  destruct (drive fuel root w) as [[root1 w1]|] eqn:E;
    [|simpl in H; rewrite E in H; discriminate].
  eapply run_until_complete_round; [exact E| |by eauto|exact H].
  by eapply I_drive.
Qed.

(** The same when the invariant holds only from the first step on. *)
Lemma run_until_complete_invariant_from (I0 : comp -> world -> Prop) fuel root w o w' :
  (forall fuel root w root' w',
     I0 root w -> drive fuel root w = Some (root', w') -> I root' w') ->
  I0 root w ->
  run_until_complete fuel root w = Some (o, w') ->
  ends_in I o w'.
Proof using All.
  intros I0_drive Hi H. destruct fuel as [|fuel]; [discriminate|].
  destruct (drive fuel root w) as [[root1 w1]|] eqn:E;
    [|simpl in H; rewrite E in H; discriminate].
  eapply run_until_complete_round; [exact E| | |exact H].
  - by eapply I0_drive.
  - intros. by eapply run_until_complete_invariant.
Qed.
End RunInvariant.

(** ** Sink.send *)

Lemma response_calls_called c w hst :
  calls hst = calls (the_host w) ++ [c] ->
  response_call c = false ->
  response_calls (with_host hst w) = response_calls w.
Proof.
  intros E Hc. unfold response_calls. simpl. rewrite E, List.filter_app. simpl.
  rewrite Hc. by rewrite app_nil_r.
Qed.

(** One attempt of a send extends what was observed downstream by the next
    bytes of the buffer, and by nothing else. *)
Lemma Sink_attempt_effect s buf off w a w' base :
  Sink_attempt s buf off w = (a, w') ->
  downstream (the_host w) !!! s = base ++ take off buf ->
  closed_sinks w' = closed_sinks w /\
  the_loop w' = the_loop w /\
  response_calls w' = response_calls w /\
  match a with
  | Delivered v => v = VNone /\ downstream (the_host w') !!! s = base ++ buf
  | Again off' => downstream (the_host w') !!! s = base ++ take off' buf
  | Suspend _ | Failed _ => downstream (the_host w') !!! s = base ++ take off buf
  end.
Proof.
  unfold Sink_attempt, non_blocking_write. intros H Hd.
  case_bool_decide; [by simplify_eq|].
  simpl in H.
  destruct (writable (the_host w) !!! s) as [|[n|p|c] rest] eqn:Ew; simpl in H.
  - simplify_eq. repeat split; try done.
    by apply response_calls_called with (c := CallWrite s (drop off buf)).
  - assert (downstream (the_host w) !!! s ++ take (n `min` length (drop off buf)) (drop off buf)
            = base ++ take (off + (n `min` length (drop off buf))) buf) as Hnew.
    { rewrite Hd, <- app_assoc. f_equal. apply take_take_drop. }
    case_match eqn:Hle; simplify_eq; simpl; rewrite lookup_total_insert_eq, Hnew.
    + apply Nat.leb_le in Hle. repeat split; try done.
      * by apply response_calls_called with (c := CallWrite s (drop off buf)).
      * by rewrite take_ge.
    + repeat split; try done.
      by apply response_calls_called with (c := CallWrite s (drop off buf)).
  - simplify_eq. repeat split; try done.
    by apply response_calls_called with (c := CallWrite s (drop off buf)).
  - simplify_eq. repeat split; try done.
    by apply response_calls_called with (c := CallWrite s (drop off buf)).
Qed.

Lemma drive_Send s buf base fuel : forall off w r w',
  drive fuel (Send s buf off) w = Some (r, w') ->
  downstream (the_host w) !!! s = base ++ take off buf ->
  closed_sinks w' = closed_sinks w /\
  response_calls w' = response_calls w /\
  sending s buf base r w'.
Proof.
  induction fuel as [|fuel IH]; intros off w r w' H Hd; [discriminate|].
  simpl in H.
  destruct (Sink_attempt s buf off w) as [a w1] eqn:Ea.
  destruct (Sink_attempt_effect _ _ _ _ _ _ _ Ea Hd) as (Hc & Hl & Hr & Ha).
  destruct a.
  - simplify_eq. by destruct Ha.
  - unfold register in H. simplify_eq. simpl. done.
  - destruct (IH _ _ _ _ H Ha) as (Hc' & Hr' & Hs).
    rewrite Hc', Hr'. done.
  - simplify_eq. simpl. eauto.
Qed.

Lemma sending_drive s buf base fuel root w root' w' :
  sending s buf base root w ->
  drive fuel root w = Some (root', w') ->
  sending s buf base root' w'.
Proof.
  intros Hs H. destruct root; try done.
  - destruct fuel; simpl in H; by simplify_eq.
  - destruct fuel; simpl in H; by simplify_eq.
  - destruct Hs as (-> & -> & Hd).
    by destruct (drive_Send _ _ _ _ _ _ _ _ H Hd) as (_ & _ & ?).
  - destruct fuel; simpl in H; by simplify_eq.
Qed.

Lemma sending_same_downstream s buf base root w w' :
  downstream (the_host w') = downstream (the_host w) ->
  sending s buf base root w -> sending s buf base root w'.
Proof.
  intros E. unfold sending. rewrite E.
  destruct root; try done.
Qed.

Lemma sending_wake s buf base root w f :
  sending s buf base root w -> sending s buf base (wake f root) w.
Proof.
  destruct root; try done. simpl.
  destruct root; try done.
  by case_match.
Qed.

Lemma run_until_complete_sending s buf base fuel root w o w' :
  sending s buf base root w ->
  run_until_complete fuel root w = Some (o, w') ->
  exists root',
    sending s buf base root' w' /\
    match o with
    | Completed v => root' = Ret v
    | Fail e => root' = Raise e \/
                (e = SchedulingContractViolation /\ suspended root' = true)
    end.
Proof.
  apply (run_until_complete_invariant (sending s buf base)).
  - intros. by eapply sending_drive.
  - intros. by eapply sending_same_downstream.
  - intros. by eapply sending_same_downstream.
  - intros. by eapply sending_same_downstream.
  - intros. by apply sending_wake.
Qed.

(** ** Rounds with a single parked frame *)

Lemma run_until_complete_Ret fuel root w v w1 :
  drive fuel root w = Some (Ret v, w1) ->
  run_until_complete (S fuel) root w = Some (Completed v, w1).
Proof. intros E. simpl. by rewrite E. Qed.

Lemma run_until_complete_Raise fuel root w e w1 :
  drive fuel root w = Some (Raise e, w1) ->
  run_until_complete (S fuel) root w = Some (Fail e, w1).
Proof. intros E. simpl. by rewrite E. Qed.

Lemma run_until_complete_first_round fuel root w root1 w1 :
  drive fuel root w = Some (root1, w1) ->
  suspended root1 = true ->
  drive fuel root1 w1 = Some (root1, w1) ->
  run_until_complete (S fuel) root w = run_until_complete (S fuel) root1 w1.
Proof.
  intros E Hs E1.
  rewrite (run_until_complete_suspended _ _ _ _ _ E Hs).
  by rewrite (run_until_complete_suspended _ _ _ _ _ E1 Hs).
Qed.

Lemma contract_kept_single ready p :
  contract_kept ready [p] = true -> is_ready ready 0 = true.
Proof.
  unfold contract_kept, is_ready. intros H.
  apply andb_true_iff in H as [Hne Hall].
  apply negb_true_iff, bool_decide_eq_false in Hne.
  destruct ready as [|i ready]; [done|].
  simpl in Hall. apply andb_true_iff in Hall as [Hi _].
  apply Nat.ltb_lt in Hi. simpl in Hi.
  apply bool_decide_eq_true. assert (i = 0) as -> by lia. by left.
Qed.

Lemma run_until_complete_single fuel root w p f :
  suspended root = true ->
  drive fuel root w = Some (root, w) ->
  wakers (the_loop w) = [(p, f)] ->
  keeps_contract w ->
  run_until_complete (S fuel) root w =
    match drive fuel (wake f root) (resumed p f w) with
    | None => None
    | Some (root2, w3) => run_until_complete fuel root2 w3
    end.
Proof.
  intros Hs E Hw Hk.
  rewrite (run_until_complete_suspended _ _ _ _ _ E Hs).
  unfold resumed, polled, poll_list. rewrite Hw. simpl.
  rewrite (Hk _ [p]) by done.
  rewrite (contract_kept_single _ p) by (by apply Hk).
  cbn [resume_all].
  match goal with
  | |- context [drive ?a ?c ?x] => destruct (drive a c x) as [[root2 w3]|]
  end; reflexivity.
Qed.

Lemma keeps_contract_same w w' :
  poll_answer (the_host w') = poll_answer (the_host w) ->
  keeps_contract w -> keeps_contract w'.
Proof. intros E H cs ps. rewrite E. apply H. Qed.

(** ** Unfolding [drive] *)

Lemma drive_Send_eq fuel s buf offset w :
  drive (S fuel) (Send s buf offset) w =
    match Sink_attempt s buf offset w with
    | (Delivered v, w1) => Some (Ret v, w1)
    | (Suspend p, w1) => Some (register p (Send s buf offset) w1)
    | (Again offset', w1) => drive fuel (Send s buf offset') w1
    | (Failed e, w1) => Some (Raise e, w1)
    end.
Proof. reflexivity. Qed.

Lemma drive_NextChunk_eq fuel s max_bytes w :
  drive (S fuel) (NextChunk s max_bytes) w =
    match Stream_attempt s max_bytes w with
    | (Delivered v, w1) => Some (Ret v, w1)
    | (Suspend p, w1) => Some (register p (NextChunk s max_bytes) w1)
    | (Again _, w1) => drive fuel (NextChunk s max_bytes) w1
    | (Failed e, w1) => Some (Raise e, w1)
    end.
Proof. reflexivity. Qed.

Lemma drive_Bind_eq fuel c1 k w :
  drive (S fuel) (Bind c1 k) w =
    match drive fuel c1 w with
    | None => None
    | Some (Ret v, w1) => drive fuel (k v) w1
    | Some (Raise e, w1) => Some (Raise e, w1)
    | Some (c1', w1) => Some (Bind c1' k, w1)
    end.
Proof. reflexivity. Qed.

Lemma drive_ResponseWrite_eq fuel r k w :
  drive (S fuel) (ResponseWrite r k) w =
    drive fuel (k (next_handle (the_host w)))
      (with_host (called (CallResponseWrite r (next_handle (the_host w)))
                    (set_next_handle (S (next_handle (the_host w))) (the_host w))) w).
Proof. reflexivity. Qed.

Lemma drive_SetOutparam_eq fuel out r w :
  drive (S fuel) (SetOutparam out r) w =
    Some (Ret VNone, with_host (called (CallSetOutparam out r) (the_host w)) w).
Proof. reflexivity. Qed.

Lemma drive_SinkClose_eq fuel s w :
  drive (S fuel) (SinkClose s) w =
    match Sink_close s w with
    | (Failed e, w1) => Some (Raise e, w1)
    | (_, w1) => Some (Ret VNone, w1)
    end.
Proof. reflexivity. Qed.

Lemma drive_Wait_eq fuel f retry w :
  drive (S fuel) (Wait f retry) w = Some (Wait f retry, w).
Proof. reflexivity. Qed.

Lemma drive_Ret_eq fuel v w : drive (S fuel) (Ret v) w = Some (Ret v, w).
Proof. reflexivity. Qed.

Lemma drive_Raise_eq fuel e w : drive (S fuel) (Raise e) w = Some (Raise e, w).
Proof. reflexivity. Qed.

(** ** A send on a host that accepts the bytes *)

Lemma Sink_attempt_ready s buf off w n rest :
  s ∉ closed_sinks w ->
  writable (the_host w) !!! s = WriteReady n :: rest ->
  exists w1,
    Sink_attempt s buf off w =
      (if length buf <=? off + (n `min` length (drop off buf))
       then Delivered VNone else Again (off + (n `min` length (drop off buf))), w1) /\
    only_wrote s rest w w1.
Proof.
  intros Hc Hw. unfold Sink_attempt, non_blocking_write.
  rewrite bool_decide_eq_false_2 by done. simpl. rewrite Hw.
  case_match; eexists; (split; [reflexivity|]);
    unfold only_wrote; simpl; by rewrite lookup_total_insert_eq.
Qed.

Lemma Sink_attempt_block s buf off w p rest :
  s ∉ closed_sinks w ->
  writable (the_host w) !!! s = WriteWouldBlock p :: rest ->
  exists w1,
    Sink_attempt s buf off w = (Suspend p, w1) /\
    only_wrote s rest w w1.
Proof.
  intros Hc Hw. unfold Sink_attempt, non_blocking_write.
  rewrite bool_decide_eq_false_2 by done. simpl. rewrite Hw.
  eexists; (split; [reflexivity|]).
  unfold only_wrote; simpl; by rewrite lookup_total_insert_eq.
Qed.

(** Driving a send through the answers [pre] of the host, the last of which
    lets the rest of the buffer through: the send returns, or it is parked
    with fewer answers ahead. *)
Lemma drive_Send_accepting s buf n post : forall pre off w fuel,
  s ∉ closed_sinks w ->
  writable (the_host w) !!! s = pre ++ WriteReady n :: post ->
  forallb (fun r => negb (is_WriteError r)) pre = true ->
  length buf <= off + accepted_total pre + n ->
  length pre + 1 <= fuel ->
  exists r w1,
    drive fuel (Send s buf off) w = Some (r, w1) /\
    closed_sinks w1 = closed_sinks w /\
    poll_answer (the_host w1) = poll_answer (the_host w) /\
    ((r = Ret VNone /\ the_loop w1 = the_loop w) \/
     (exists p off' pre',
        r = Wait (next_frame (the_loop w)) (Send s buf off') /\
        wakers (the_loop w1) = wakers (the_loop w) ++ [(p, next_frame (the_loop w))] /\
        writable (the_host w1) !!! s = pre' ++ WriteReady n :: post /\
        forallb (fun r => negb (is_WriteError r)) pre' = true /\
        length pre' < length pre /\
        length buf <= off' + accepted_total pre' + n)).
Proof.
  induction pre as [|a pre IH]; intros off w fuel Hc Hw Hb Hlen Hfuel;
    (destruct fuel as [|fuel]; [cbn in Hfuel; lia|]); rewrite drive_Send_eq.
  - rewrite app_nil_l in Hw.
    destruct (Sink_attempt_ready s buf off w n post Hc Hw) as (w1 & Ha & Hrest & Hcl & Hl & Hp).
    rewrite Ha.
    assert ((length buf <=? off + (n `min` length (drop off buf))) = true) as ->.
    { apply Nat.leb_le. rewrite length_drop. unfold accepted_total in Hlen.
      cbn in Hlen. lia. }
    exists (Ret VNone), w1. repeat split; try done. by left.
  - cbn [forallb] in Hb. apply andb_true_iff in Hb as [Ha Hb].
    rewrite <- app_comm_cons in Hw.
    assert (accepted_total (a :: pre) = accepts a + accepted_total pre) as Htot
      by reflexivity.
    rewrite Htot in Hlen. cbn [length] in Hfuel.
    destruct a as [m|p|c]; [| |done]; cbn [accepts] in Hlen.
    + destruct (Sink_attempt_ready s buf off w m _ Hc Hw) as (w1 & Hat & Hrest & Hcl & Hl & Hp).
      rewrite Hat.
      destruct (length buf <=? off + (m `min` length (drop off buf))) eqn:Hle.
      * exists (Ret VNone), w1. repeat split; try done. by left.
      * apply Nat.leb_gt in Hle. rewrite length_drop in Hle.
        destruct (IH (off + (m `min` length (drop off buf))) w1 fuel)
          as (r & w2 & Hd & Hcl2 & Hp2 & Hcases).
        { by rewrite Hcl. }
        { done. }
        { done. }
        { rewrite length_drop. lia. }
        { lia. }
        exists r, w2. rewrite Hd, Hcl2, Hcl, Hp2, Hp. repeat split; try done.
        destruct Hcases as [[-> Hl2]|(p & off' & pre' & -> & Hwk & Hw2 & Hb2 & Hlt & Hlen2)].
        -- left. by rewrite Hl2, Hl.
        -- right. exists p, off', pre'. rewrite Hl in *.
           repeat split; try done. cbn [length]. lia.
    + destruct (Sink_attempt_block s buf off w p _ Hc Hw) as (w1 & Hat & Hrest & Hcl & Hl & Hp).
      rewrite Hat. unfold register.
      eexists _, _. split; [reflexivity|]. cbn. repeat split; try done.
      right. exists p, off, pre. rewrite Hl.
      repeat split; try done; lia.
Qed.

Lemma resumed_facts p f w :
  closed_sinks (resumed p f w) = closed_sinks w /\
  closed_streams (resumed p f w) = closed_streams w /\
  writable (the_host (resumed p f w)) = writable (the_host w) /\
  readable (the_host (resumed p f w)) = readable (the_host w) /\
  poll_answer (the_host (resumed p f w)) = poll_answer (the_host w) /\
  wakers (the_loop (resumed p f w)) = [].
Proof. done. Qed.

Lemma run_until_complete_Send_parked s buf n post : forall k pre,
  length pre <= k ->
  forall off w p f fuel,
    keeps_contract w ->
    s ∉ closed_sinks w ->
    wakers (the_loop w) = [(p, f)] ->
    writable (the_host w) !!! s = pre ++ WriteReady n :: post ->
    forallb (fun r => negb (is_WriteError r)) pre = true ->
    length buf <= off + accepted_total pre + n ->
    k + 3 <= fuel ->
    exists w', run_until_complete fuel (Wait f (Send s buf off)) w = Some (Completed VNone, w').
Proof.
  induction k as [|k IH]; intros pre Hk off w p f fuel Hkeep Hc Hwk Hw Hb Hlen Hfuel;
    (destruct fuel as [|fuel]; [lia|]);
    (destruct fuel as [|fuel]; [lia|]).
  all: rewrite (run_until_complete_single _ _ _ p f) by done.
  all: destruct (resumed_facts p f w) as (Hrc & _ & Hrw & _ & Hrp & Hrk).
  all: cbn [wake]; rewrite Nat.eqb_refl.
  all: destruct (drive_Send_accepting s buf n post pre off (resumed p f w) (S fuel))
         as (r & w1 & Hd & Hcl & Hp & Hcases);
    [by rewrite Hrc|by rewrite Hrw|done|done|lia|].
  all: rewrite Hd.
  all: destruct Hcases as [[-> Hl]|(p' & off' & pre' & -> & Hwk' & Hw' & Hb' & Hlt & Hlen')].
  - destruct fuel as [|fuel]; [lia|]. eexists. by apply run_until_complete_Ret.
  - lia.
  - destruct fuel as [|fuel]; [lia|]. eexists. by apply run_until_complete_Ret.
  - assert (length pre' <= k) as Hk' by lia.
    apply (IH pre' Hk' off' w1 p' (next_frame (the_loop (resumed p f w)))); try done.
    + apply (keeps_contract_same (resumed p f w)); [done|].
      by apply (keeps_contract_same w).
    + by rewrite Hcl, Hrc.
    + lia.
Qed.

Lemma run_until_complete_Send_accepting s buf n pre post w fuel :
  keeps_contract w ->
  s ∉ closed_sinks w ->
  wakers (the_loop w) = [] ->
  writable (the_host w) !!! s = pre ++ WriteReady n :: post ->
  forallb (fun r => negb (is_WriteError r)) pre = true ->
  length buf <= accepted_total pre + n ->
  length pre + 3 <= fuel ->
  exists w', run_until_complete fuel (Send s buf 0) w = Some (Completed VNone, w').
Proof.
  intros Hkeep Hc Hwk Hw Hb Hlen Hfuel.
  destruct fuel as [|fuel]; [lia|].
  destruct (drive_Send_accepting s buf n post pre 0 w fuel)
    as (r & w1 & Hd & Hcl & Hp & Hcases); try done; [lia|].
  destruct Hcases as [[-> Hl]|(p' & off' & pre' & -> & Hwk' & Hw' & Hb' & Hlt & Hlen')].
  - eexists. by apply run_until_complete_Ret.
  - destruct fuel as [|fuel]; [lia|].
    rewrite (run_until_complete_first_round _ _ _ _ _ Hd) by done.
    apply (run_until_complete_Send_parked s buf n post (length pre') pre'
             (le_n _) off' w1 p' (next_frame (the_loop w))); try done.
    + by apply (keeps_contract_same w).
    + by rewrite Hcl.
    + by rewrite Hwk', Hwk.
    + lia.
Qed.

Lemma contract_kept_all_ready (ps : list nat) :
  ps <> [] -> contract_kept (seq 0 (length ps)) ps = true.
Proof.
  intros Hne. unfold contract_kept. apply andb_true_iff. split.
  - apply negb_true_iff, bool_decide_eq_false.
    destruct ps; [done|]. discriminate.
  - apply forallb_forall. intros i Hi. apply in_seq in Hi.
    apply Nat.ltb_lt. lia.
Qed.

Lemma host_both_keeps_contract : keeps_contract (world_of host_both).
Proof. intros cs ps Hne. by apply contract_kept_all_ready. Qed.

(** C1: a send of [buf] on sink [s], run by [run_until_complete], returns
    either normally or with a failure.  Whatever it returns, the bytes
    observed downstream are those observed before followed by a prefix of
    [buf]; when it returns normally the prefix is all of [buf].  And on a
    host that keeps the readiness contract and whose answers to the write
    attempts are would-block or partial acceptances whose sizes reach the
    length of [buf], the send does return normally, with all of [buf]
    downstream, in order. *)
Theorem send_all_or_fail (s : handle) (buf : bytes) (w : world) :
  (forall fuel o w',
     run_until_complete fuel (Send s buf 0) w = Some (o, w') ->
     (exists n, downstream (the_host w') !!! s =
                  downstream (the_host w) !!! s ++ take n buf) /\
     match o with
     | Completed v =>
         v = VNone /\
         downstream (the_host w') !!! s = downstream (the_host w) !!! s ++ buf
     | Fail _ => True
     end) /\
  (forall pre n post fuel,
     keeps_contract w ->
     s ∉ closed_sinks w ->
     wakers (the_loop w) = [] ->
     writable (the_host w) !!! s = pre ++ WriteReady n :: post ->
     forallb (fun r => negb (is_WriteError r)) pre = true ->
     length buf <= accepted_total pre + n ->
     length pre + 3 <= fuel ->
     exists w',
       run_until_complete fuel (Send s buf 0) w = Some (Completed VNone, w') /\
       downstream (the_host w') !!! s = downstream (the_host w) !!! s ++ buf).
Proof.
  assert (forall fuel o w',
     run_until_complete fuel (Send s buf 0) w = Some (o, w') ->
     (exists n, downstream (the_host w') !!! s =
                  downstream (the_host w) !!! s ++ take n buf) /\
     match o with
     | Completed v =>
         v = VNone /\
         downstream (the_host w') !!! s = downstream (the_host w) !!! s ++ buf
     | Fail _ => True
     end) as Hsafe.
  { intros fuel o w' Hrun.
    destruct (run_until_complete_sending s buf (downstream (the_host w) !!! s)
                fuel (Send s buf 0) w o w') as (root' & Hs & Ho); [|done|].
    { cbn. by rewrite take_0, app_nil_r. }
    destruct o as [v|e].
    - subst root'. destruct Hs as [-> Hd]. split; [|done].
      exists (length buf). by rewrite take_ge.
    - split; [|done].
      destruct Ho as [->|[_ Hsusp]]; [exact Hs|].
      destruct root' as [| | | | | | |s1 buf1 off1| | | | | |f1 r1]; try done.
      + destruct Hs as (_ & _ & Hd). eauto.
      + destruct r1; try done. destruct Hs as (_ & _ & Hd). eauto. }
  split; [exact Hsafe|].
  intros pre n post fuel Hkeep Hc Hwk Hw Hb Hlen Hfuel.
  destruct (run_until_complete_Send_accepting s buf n pre post w fuel) as [w' Hrun];
    try done.
  exists w'. split; [done|].
  by destruct (Hsafe _ _ _ Hrun) as (_ & _ & Hd).
Qed.

Lemma send_all_or_fail_witness :
  ((exists n, downstream (the_host world_sent) !!! 3 =
                downstream (the_host (world_of host_both)) !!! 3 ++ take n hello) /\
   (VNone = VNone /\
    downstream (the_host world_sent) !!! 3 =
      downstream (the_host (world_of host_both)) !!! 3 ++ hello)) /\
  (exists w',
     run_until_complete 6 (Send 3 hello 0) (world_of host_both) =
       Some (Completed VNone, w') /\
     downstream (the_host w') !!! 3 =
       downstream (the_host (world_of host_both)) !!! 3 ++ hello).
Proof.
  split.
  - apply (proj1 (send_all_or_fail 3 hello (world_of host_both))
             6 (Completed VNone) world_sent).
    vm_compute. reflexivity.
  - apply (proj2 (send_all_or_fail 3 hello (world_of host_both))
             [WriteReady 5; WriteWouldBlock 200; WriteReady 3] 100 [] 6).
    + exact host_both_keeps_contract.
    + vm_compute. discriminate.
    + reflexivity.
    + reflexivity.
    + reflexivity.
    + vm_compute. lia.
    + vm_compute. lia.
Defined.

(** ** Stream.next_chunk *)

Lemma read_to_end_S n s max_bytes acc :
  read_to_end (S n) s max_bytes acc =
    Bind (NextChunk s max_bytes) (after_chunk n s max_bytes acc).
Proof. reflexivity. Qed.

Lemma Stream_attempt_data s max_bytes w b0 bs rest :
  s ∉ closed_streams w ->
  readable (the_host w) !!! s = ReadReady (b0 :: bs) :: rest ->
  exists w1,
    Stream_attempt s max_bytes w = (Delivered (VChunk (b0 :: bs)), w1) /\
    only_read s rest w w1.
Proof.
  intros Hc Hw. unfold Stream_attempt, non_blocking_read.
  rewrite bool_decide_eq_false_2 by done. cbn. rewrite Hw.
  eexists; (split; [reflexivity|]).
  unfold only_read; cbn. by rewrite lookup_total_insert_eq.
Qed.

Lemma Stream_attempt_block s max_bytes w p rest :
  s ∉ closed_streams w ->
  readable (the_host w) !!! s = ReadWouldBlock p :: rest ->
  exists w1,
    Stream_attempt s max_bytes w = (Suspend p, w1) /\
    only_read s rest w w1.
Proof.
  intros Hc Hw. unfold Stream_attempt, non_blocking_read.
  rewrite bool_decide_eq_false_2 by done. cbn. rewrite Hw.
  eexists; (split; [reflexivity|]).
  unfold only_read; cbn. by rewrite lookup_total_insert_eq.
Qed.

Lemma Stream_attempt_end s max_bytes w tail :
  s ∉ closed_streams w ->
  readable (the_host w) !!! s = tail ->
  at_end tail = true ->
  exists w1,
    Stream_attempt s max_bytes w = (Delivered VEof, w1) /\
    only_read s (drop 1 tail) w w1.
Proof.
  intros Hc Hw He. unfold Stream_attempt, non_blocking_read.
  rewrite bool_decide_eq_false_2 by done. cbn. rewrite Hw.
  destruct tail as [|[[|b0 bs]|p|c] rest]; try done.
  - eexists; (split; [reflexivity|]). unfold only_read; cbn. by rewrite Hw.
  - eexists; (split; [reflexivity|]).
    unfold only_read; cbn. by rewrite lookup_total_insert_eq.
Qed.

Lemma available_cons r script : available (r :: script) = chunk_of r ++ available script.
Proof. reflexivity. Qed.

(** Driving the caller through the answers [script] of the host, after
    which the stream is at its end: it returns all the bytes and the
    end-of-stream value, or it is parked with fewer answers ahead and has
    kept the bytes delivered so far. *)
Lemma drive_read_to_end s max_bytes tail : forall script acc w fuel n,
  s ∉ closed_streams w ->
  readable (the_host w) !!! s = script ++ tail ->
  forallb data_or_block script = true ->
  at_end tail = true ->
  length script < n ->
  length script + 3 <= fuel ->
  exists r w1,
    drive fuel (read_to_end n s max_bytes acc) w = Some (r, w1) /\
    closed_streams w1 = closed_streams w /\
    poll_answer (the_host w1) = poll_answer (the_host w) /\
    ((r = Ret (VPair (VBytes (acc ++ available script)) VEof) /\
      the_loop w1 = the_loop w /\
      readable (the_host w1) !!! s = drop 1 tail) \/
     (exists p script' acc' n',
        r = Bind (Wait (next_frame (the_loop w)) (NextChunk s max_bytes))
              (after_chunk n' s max_bytes acc') /\
        wakers (the_loop w1) = wakers (the_loop w) ++ [(p, next_frame (the_loop w))] /\
        readable (the_host w1) !!! s = script' ++ tail /\
        forallb data_or_block script' = true /\
        length script' < length script /\
        length script' < S n' /\
        acc' ++ available script' = acc ++ available script)).
Proof.
  induction script as [|a script IH]; intros acc w fuel n Hc Hw Hb He Hn Hfuel;
    (destruct n as [|n]; [cbn in Hn; lia|]);
    (destruct fuel as [|fuel]; [lia|]);
    (destruct fuel as [|fuel]; [lia|]);
    rewrite read_to_end_S, drive_Bind_eq, drive_NextChunk_eq.
  - rewrite app_nil_l in Hw.
    destruct (Stream_attempt_end s max_bytes w tail Hc Hw He)
      as (w1 & Ha & Hrest & Hcl & Hl & Hp).
    rewrite Ha. cbn [after_chunk].
    destruct fuel as [|fuel]; [cbn in Hfuel; lia|]. rewrite drive_Ret_eq.
    exists (Ret (VPair (VBytes acc) VEof)), w1. repeat split; try done.
    left. unfold available. cbn. by rewrite app_nil_r.
  - cbn [forallb] in Hb. apply andb_true_iff in Hb as [Ha Hb].
    rewrite <- app_comm_cons in Hw. cbn [length] in Hn, Hfuel.
    rewrite available_cons.
    destruct a as [[|b0 bs]|p|c]; try done; cbn [chunk_of].
    + destruct (Stream_attempt_data s max_bytes w b0 bs _ Hc Hw)
        as (w1 & Hat & Hrest & Hcl & Hl & Hp).
      rewrite Hat. cbn [after_chunk].
      destruct (IH (acc ++ b0 :: bs) w1 (S fuel) n)
        as (r & w2 & Hd & Hcl2 & Hp2 & Hcases); try done.
      { by rewrite Hcl. }
      { lia. }
      { lia. }
      exists r, w2. rewrite Hd, Hcl2, Hcl, Hp2, Hp. repeat split; try done.
      destruct Hcases as [(-> & Hl2 & Hr2)|(p & script' & acc' & n' & -> & Hwk & Hw2 & Hb2 & Hlt & Hlt' & Hacc)].
      * left. rewrite Hl2, Hl, <- app_assoc. done.
      * right. exists p, script', acc', n'. rewrite Hl in *.
        repeat split; try done.
        -- cbn [length]. lia.
        -- by rewrite Hacc, <- app_assoc.
    + destruct (Stream_attempt_block s max_bytes w p _ Hc Hw)
        as (w1 & Hat & Hrest & Hcl & Hl & Hp).
      rewrite Hat. unfold register.
      eexists _, _. split; [reflexivity|]. cbn. repeat split; try done.
      right. exists p, script, acc, n. rewrite Hl.
      repeat split; try done; lia.
Qed.

Lemma run_until_complete_read_parked s max_bytes tail : forall k script,
  length script <= k ->
  forall acc n w p f fuel,
    keeps_contract w ->
    s ∉ closed_streams w ->
    wakers (the_loop w) = [(p, f)] ->
    readable (the_host w) !!! s = script ++ tail ->
    forallb data_or_block script = true ->
    at_end tail = true ->
    length script < S n ->
    k + 5 <= fuel ->
    exists w',
      run_until_complete fuel
        (Bind (Wait f (NextChunk s max_bytes)) (after_chunk n s max_bytes acc)) w =
        Some (Completed (VPair (VBytes (acc ++ available script)) VEof), w') /\
      readable (the_host w') !!! s = drop 1 tail.
Proof.
  induction k as [|k IH];
    intros script Hk acc n w p f fuel Hkeep Hc Hwk Hw Hb He Hn Hfuel;
    (destruct fuel as [|fuel]; [lia|]);
    (destruct fuel as [|fuel]; [lia|]);
    (destruct fuel as [|fuel]; [lia|]).
  all: rewrite (run_until_complete_single _ _ _ p f) by done.
  all: destruct (resumed_facts p f w) as (_ & Hrc & _ & Hrw & Hrp & Hrk).
  all: cbn [wake]; rewrite Nat.eqb_refl, <- read_to_end_S.
  all: destruct (drive_read_to_end s max_bytes tail script acc (resumed p f w)
                   (S (S fuel)) (S n))
         as (r & w1 & Hd & Hcl & Hp & Hcases);
    [by rewrite Hrc|by rewrite Hrw|done|done|done|lia|].
  all: rewrite Hd.
  all: destruct Hcases as [(-> & Hl & Hr)|(p' & script' & acc' & n' & -> & Hwk' & Hw' & Hb' & Hlt & Hlt' & Hacc)].
  - eexists. split; [by apply run_until_complete_Ret|done].
  - lia.
  - eexists. split; [by apply run_until_complete_Ret|done].
  - assert (length script' <= k) as Hk' by lia.
    rewrite <- Hacc.
    apply (IH script' Hk' acc' n' w1 p' (next_frame (the_loop (resumed p f w))));
      try done.
    + apply (keeps_contract_same (resumed p f w)); [done|].
      by apply (keeps_contract_same w).
    + by rewrite Hcl, Hrc.
    + lia.
Qed.

Lemma run_until_complete_read_to_end s max_bytes n script tail w fuel :
  keeps_contract w ->
  s ∉ closed_streams w ->
  wakers (the_loop w) = [] ->
  readable (the_host w) !!! s = script ++ tail ->
  forallb data_or_block script = true ->
  at_end tail = true ->
  length script < n ->
  length script + 5 <= fuel ->
  exists w',
    run_until_complete fuel (read_to_end n s max_bytes []) w =
      Some (Completed (VPair (VBytes (available script)) VEof), w') /\
    readable (the_host w') !!! s = drop 1 tail.
Proof.
  intros Hkeep Hc Hwk Hw Hb He Hn Hfuel.
  destruct fuel as [|fuel]; [lia|].
  destruct (drive_read_to_end s max_bytes tail script [] w fuel n)
    as (r & w1 & Hd & Hcl & Hp & Hcases); try done; [lia|].
  destruct Hcases as [(-> & Hl & Hr)|(p' & script' & acc' & n' & -> & Hwk' & Hw' & Hb' & Hlt & Hlt' & Hacc)].
  - eexists. split; [by apply run_until_complete_Ret|done].
  - destruct fuel as [|fuel]; [lia|]. destruct fuel as [|fuel]; [lia|].
    rewrite (run_until_complete_first_round _ _ _ _ _ Hd) by done.
    cbn [app] in Hacc. rewrite <- Hacc.
    apply (run_until_complete_read_parked s max_bytes tail (length script') script'
             (le_n _) acc' n' w1 p' (next_frame (the_loop w))); try done.
    + by apply (keeps_contract_same w).
    + by rewrite Hcl.
    + by rewrite Hwk', Hwk.
    + lia.
Qed.

(** C2: let the host answer the read attempts on stream [s] with [script],
    any interleaving of would-block results and non-empty data results,
    followed by the end of the stream.  On a host that keeps the readiness
    contract, a caller that awaits [next_chunk()] until the end is given
    chunks whose concatenation is exactly the bytes of [script] in order,
    and then the end-of-stream value; every listed answer was consumed once.
    An empty successful read makes [next_chunk()] return the value [VEof],
    not a failure. *)
Theorem stream_delivers_available (s : handle) (max_bytes n : nat)
    (script tail : list read_result) (w : world) (fuel : nat) :
  keeps_contract w ->
  s ∉ closed_streams w ->
  wakers (the_loop w) = [] ->
  readable (the_host w) !!! s = script ++ tail ->
  forallb data_or_block script = true ->
  at_end tail = true ->
  length script < n ->
  length script + 5 <= fuel ->
  (exists w',
     run_until_complete fuel (read_to_end n s max_bytes []) w =
       Some (Completed (VPair (VBytes (available script)) VEof), w') /\
     readable (the_host w') !!! s = drop 1 tail) /\
  (forall w0 fuel0,
     s ∉ closed_streams w0 ->
     at_end (readable (the_host w0) !!! s) = true ->
     exists w1,
       run_until_complete (S (S fuel0)) (NextChunk s max_bytes) w0 =
         Some (Completed VEof, w1)).
Proof.
  intros Hkeep Hc Hwk Hw Hb He Hn Hfuel. split.
  - by apply run_until_complete_read_to_end.
  - intros w0 fuel0 Hc0 He0.
    destruct (Stream_attempt_end s max_bytes w0 _ Hc0 eq_refl He0) as (w1 & Ha & _).
    exists w1. apply run_until_complete_Ret.
    by rewrite drive_NextChunk_eq, Ha.
Qed.

Lemma stream_delivers_available_witness :
  (exists w',
     run_until_complete 8 (read_to_end 4 7 10 []) (world_of host_both) =
       Some (Completed (VPair (VBytes (available script_reading)) VEof), w') /\
     readable (the_host w') !!! 7 = drop 1 []) /\
  (forall w0 fuel0,
     7 ∉ closed_streams w0 ->
     at_end (readable (the_host w0) !!! 7) = true ->
     exists w1,
       run_until_complete (S (S fuel0)) (NextChunk 7 10) w0 =
         Some (Completed VEof, w1)).
Proof.
  apply (stream_delivers_available 7 10 4 script_reading [] (world_of host_both) 8).
  - exact host_both_keeps_contract.
  - vm_compute. discriminate.
  - reflexivity.
  - reflexivity.
  - reflexivity.
  - reflexivity.
  - vm_compute. lia.
  - vm_compute. lia.
Defined.

(** ** More fuel never changes a result *)

Lemma drive_mono fuel : forall fuel' c w r,
  drive fuel c w = Some r -> fuel <= fuel' -> drive fuel' c w = Some r.
Proof.
  induction fuel as [|fuel IH]; intros fuel' c w r H Hle; [discriminate|].
  destruct fuel' as [|fuel']; [lia|].
  assert (forall c w r, drive fuel c w = Some r -> drive fuel' c w = Some r) as IH'.
  { intros c0 w0 r0 H0. apply (IH fuel' c0 w0 r0 H0). lia. }
  clear IH Hle.
  destruct c; try exact H.
  - rewrite drive_Bind_eq in *.
    destruct (drive fuel c w) as [[c1 w1]|] eqn:E; [|discriminate].
    rewrite (IH' _ _ _ E). destruct c1; auto.
  - cbn [drive] in *.
    destruct (drive fuel c w) as [[c1 w1]|] eqn:E; [|discriminate].
    rewrite (IH' _ _ _ E). destruct c1; auto.
  - cbn [drive] in *.
    destruct (drive fuel c1 w) as [[l1 w1]|] eqn:E1; [|discriminate].
    rewrite (IH' _ _ _ E1).
    destruct (drive fuel c2 w1) as [[r1 w2]|] eqn:E2.
    + rewrite (IH' _ _ _ E2). exact H.
    + destruct l1; try discriminate; exact H.
  - rewrite drive_NextChunk_eq in *.
    destruct (Stream_attempt s max_bytes w) as [[] w1]; auto.
  - rewrite drive_Send_eq in *.
    destruct (Sink_attempt s buf offset w) as [[] w1]; auto.
  - cbn [drive] in *. auto.
Qed.

(** ** WouldBlock is absorbed *)

Lemma Stream_attempt_absorbs s n w a w' :
  Stream_attempt s n w = (a, w') ->
  the_loop w' = the_loop w /\
  match a with Failed e => is_WouldBlock e = false | _ => True end.
Proof.
  unfold Stream_attempt. intros H.
  case_bool_decide; [by simplify_eq|].
  destruct (non_blocking_read s n (the_host w)) as [r hst].
  repeat case_match; by simplify_eq.
Qed.

Lemma Stream_close_absorbs s w a w' :
  Stream_close s w = (a, w') ->
  the_loop w' = the_loop w /\
  match a with Failed e => is_WouldBlock e = false | _ => True end.
Proof. unfold Stream_close. intros H. case_bool_decide; by simplify_eq. Qed.

Lemma Sink_attempt_absorbs s buf off w a w' :
  Sink_attempt s buf off w = (a, w') ->
  the_loop w' = the_loop w /\
  match a with Failed e => is_WouldBlock e = false | _ => True end.
Proof.
  unfold Sink_attempt. intros H.
  case_bool_decide; [by simplify_eq|].
  destruct (non_blocking_write s (drop off buf) (the_host w)) as [r hst].
  repeat case_match; by simplify_eq.
Qed.

Lemma Sink_close_absorbs s w a w' :
  Sink_close s w = (a, w') ->
  the_loop w' = the_loop w /\
  match a with Failed e => is_WouldBlock e = false | _ => True end.
Proof. unfold Sink_close. intros H. case_bool_decide; by simplify_eq. Qed.

Lemma absorbing_same_trace root w w' :
  trace (the_loop w') = trace (the_loop w) ->
  absorbing root w -> absorbing root w'.
Proof. intros E [? ?]. split; [done|]. by rewrite E. Qed.

Lemma absorbing_traced root w e :
  match e with EvCaught e' => is_WouldBlock e' = false | _ => True end ->
  absorbing root w -> absorbing root (traced e w).
Proof.
  intros He [Ha Ht]. split; [done|]. cbn.
  unfold no_WouldBlock_caught in *. rewrite forallb_app, Ht. cbn.
  destruct e; try done. by rewrite He.
Qed.

Lemma application_Raise_inv e : application (Raise e) -> is_WouldBlock e = false.
Proof. by inversion 1. Qed.

Lemma absorbing_register p retry w :
  application retry ->
  no_WouldBlock_caught (trace (the_loop w)) = true ->
  absorbing (register p retry w).1 (register p retry w).2.
Proof.
  intros Ha Ht. split; [by constructor|]. cbn.
  unfold no_WouldBlock_caught in *. by rewrite forallb_app, Ht.
Qed.

Lemma absorbing_drive fuel : forall c w c' w',
  absorbing c w -> drive fuel c w = Some (c', w') -> absorbing c' w'.
Proof.
  induction fuel as [|fuel IH]; intros c w c' w' [Ha Ht] H; [discriminate|].
  destruct Ha as [v|e He|c k Hc Hk|c h Hc Hh|l r Hl Hr|s m|s|s buf off|s|r k Hk| | | |f retry Hr];
    cbn [drive] in H.
  - simplify_eq. split; [constructor|done].
  - simplify_eq. split; [by constructor|done].
  - destruct (drive fuel c w) as [[c1 w1]|] eqn:E; [|discriminate].
    destruct (IH _ _ _ _ (conj Hc Ht) E) as [Ha1 Ht1].
    destruct c1;
      first [ by (eapply IH; [|exact H]; split; [apply Hk|exact Ht1])
            | by (simplify_eq; split; [exact Ha1|exact Ht1])
            | by (simplify_eq; split; [by constructor|exact Ht1]) ].
  - destruct (drive fuel c w) as [[c1 w1]|] eqn:E; [|discriminate].
    destruct (IH _ _ _ _ (conj Hc Ht) E) as [Ha1 Ht1].
    destruct c1;
      first [ by (simplify_eq; split; [exact Ha1|exact Ht1])
            | by (eapply IH; [|exact H];
                  apply absorbing_traced;
                  [by apply application_Raise_inv
                  |split; [by apply Hh, application_Raise_inv|exact Ht1]])
            | by (simplify_eq; split; [by constructor|exact Ht1]) ].
  - destruct (drive fuel l w) as [[l1 w1]|] eqn:E1; [|discriminate].
    destruct (IH _ _ _ _ (conj Hl Ht) E1) as [Ha1 Ht1].
    destruct (drive fuel r w1) as [[r1 w2]|] eqn:E2.
    + destruct (IH _ _ _ _ (conj Hr Ht1) E2) as [Ha2 Ht2].
      destruct l1; try (by simplify_eq);
        destruct r1; simplify_eq;
        first [ by (split; [exact Ha2|exact Ht2])
              | by (split; [by constructor|exact Ht2]) ].
    + destruct l1; try discriminate. by simplify_eq.
  - destruct (Stream_attempt s m w) as [a w1] eqn:E.
    destruct (Stream_attempt_absorbs _ _ _ _ _ E) as [Hl Hf].
    assert (no_WouldBlock_caught (trace (the_loop w1)) = true) as Ht1 by (by rewrite Hl).
    destruct a.
    + simplify_eq. split; [constructor|done].
    + injection H as <- <-. apply (absorbing_register p (NextChunk s m) w1); [constructor|done].
    + eapply IH; [|exact H]. split; [constructor|done].
    + simplify_eq. split; [by constructor|done].
  - destruct (Stream_close s w) as [a w1] eqn:E.
    destruct (Stream_close_absorbs _ _ _ _ E) as [Hl Hf].
    assert (no_WouldBlock_caught (trace (the_loop w1)) = true) as Ht1 by (by rewrite Hl).
    destruct a; simplify_eq; split; try done; by constructor.
  - destruct (Sink_attempt s buf off w) as [a w1] eqn:E.
    destruct (Sink_attempt_absorbs _ _ _ _ _ _ E) as [Hl Hf].
    assert (no_WouldBlock_caught (trace (the_loop w1)) = true) as Ht1 by (by rewrite Hl).
    destruct a.
    + simplify_eq. split; [constructor|done].
    + injection H as <- <-. apply (absorbing_register p (Send s buf off) w1); [constructor|done].
    + eapply IH; [|exact H]. split; [constructor|done].
    + simplify_eq. split; [by constructor|done].
  - destruct (Sink_close s w) as [a w1] eqn:E.
    destruct (Sink_close_absorbs _ _ _ _ E) as [Hl Hf].
    assert (no_WouldBlock_caught (trace (the_loop w1)) = true) as Ht1 by (by rewrite Hl).
    destruct a; simplify_eq; split; try done; by constructor.
  - eapply IH; [|exact H]. split; [apply Hk|done].
  - cbn in H. simplify_eq. split; [constructor|done].
  - cbn in H. simplify_eq. split; [constructor|done].
  - cbn in H. simplify_eq. split; [constructor|done].
  - simplify_eq. split; [by constructor|done].
Qed.

Lemma application_wake f root : application root -> application (wake f root).
Proof.
  induction 1; cbn [wake]; try (by constructor).
  case_match; [done|by constructor].
Qed.

Lemma run_until_complete_absorbing fuel root w o w' :
  absorbing root w ->
  run_until_complete fuel root w = Some (o, w') ->
  exists root',
    absorbing root' w' /\
    match o with
    | Completed v => root' = Ret v
    | Fail e => root' = Raise e \/
                (e = SchedulingContractViolation /\ suspended root' = true)
    end.
Proof.
  apply (run_until_complete_invariant absorbing).
  - intros. by eapply absorbing_drive.
  - intros root0 w0 e He. apply absorbing_traced. by destruct e.
  - intros. by eapply absorbing_same_trace.
  - intros. by eapply absorbing_same_trace.
  - intros root0 w0 f [Ha Ht]. split; [by apply application_wake|done].
Qed.

(** ** Failures unwind through the awaits *)

Lemma awaiting_suspended ks : forall c,
  suspended c = true -> suspended (awaiting ks c) = true.
Proof. induction ks as [|k ks IH]; intros c H; [done|]. by apply IH. Qed.

Lemma wake_awaiting f ks : forall c, wake f (awaiting ks c) = awaiting ks (wake f c).
Proof. induction ks as [|k ks IH]; intros c; [done|]. cbn [awaiting]. by rewrite IH. Qed.

Lemma drive_awaiting_Raise ks : forall fuel c w e w1,
  drive fuel c w = Some (Raise e, w1) ->
  drive (length ks + fuel) (awaiting ks c) w = Some (Raise e, w1).
Proof.
  induction ks as [|k ks IH]; intros fuel c w e w1 H; [done|].
  cbn [awaiting length]. rewrite Nat.add_succ_comm. apply IH.
  by rewrite drive_Bind_eq, H.
Qed.

Lemma drive_awaiting_suspended ks : forall fuel c w c' w1,
  suspended c' = true ->
  drive fuel c w = Some (c', w1) ->
  drive (length ks + fuel) (awaiting ks c) w = Some (awaiting ks c', w1).
Proof.
  induction ks as [|k ks IH]; intros fuel c w c' w1 Hs H; [done|].
  cbn [awaiting length]. rewrite Nat.add_succ_comm. apply IH; [done|].
  rewrite drive_Bind_eq, H. by destruct c'.
Qed.

Lemma run_until_complete_unwinds ks c e fuel w w1 F :
  drive fuel c w = Some (Raise e, w1) ->
  length ks + fuel < F ->
  run_until_complete F (awaiting ks c) w = Some (Fail e, w1).
Proof.
  intros H HF. destruct F as [|F]; [lia|].
  apply run_until_complete_Raise.
  apply (drive_mono (length ks + fuel)); [|lia].
  by apply drive_awaiting_Raise.
Qed.

Lemma run_until_complete_unwinds_resumed ks retry f p e fuel w w1 F :
  keeps_contract w ->
  wakers (the_loop w) = [(p, f)] ->
  drive fuel retry (resumed p f w) = Some (Raise e, w1) ->
  length ks + fuel + 2 < F ->
  run_until_complete F (awaiting ks (Wait f retry)) w = Some (Fail e, w1).
Proof.
  intros Hkeep Hwk H HF. destruct F as [|F]; [lia|].
  rewrite (run_until_complete_single _ _ _ p f); try done.
  - rewrite wake_awaiting. cbn [wake]. rewrite Nat.eqb_refl.
    rewrite (drive_mono (length ks + fuel) F _ _ _ (drive_awaiting_Raise ks _ _ _ _ _ H))
      by lia.
    destruct F as [|F]; [lia|]. apply run_until_complete_Raise.
    destruct F as [|F]; [lia|]. apply drive_Raise_eq.
  - by apply awaiting_suspended.
  - apply (drive_mono (length ks + 1)); [|lia].
    by apply drive_awaiting_suspended.
Qed.


Lemma host_failing_keeps_contract : keeps_contract world_read_parked.
Proof. intros cs ps Hne. by apply contract_kept_all_ready. Qed.

Lemma reraising_reads_application : application reraising_reads.
Proof.
  apply app_Try.
  - apply app_Bind; [constructor|]. intros _. constructor.
  - intros e He. by constructor.
Qed.


(** ** The "/hello" branch *)

Lemma response_calls_response c w :
  response_call c = true ->
  response_calls (with_host (called c (the_host w)) w) = response_calls w ++ [c].
Proof.
  intros Hc. unfold response_calls. cbn. rewrite List.filter_app. cbn.
  by rewrite Hc.
Qed.

Lemma responding_drive_send request out body calls0 base fuel w off r' w' :
  response_calls w =
    calls0 ++ [CallResponseWrite response_200 body;
               CallSetOutparam out (Ok response_200)] ->
  downstream (the_host w) !!! body = base ++ take off hello ->
  body ∉ closed_sinks w ->
  drive fuel (Bind (Send body hello off) (fun _ => SinkClose body)) w = Some (r', w') ->
  responding request out body calls0 base r' w'.
Proof.
  intros Hrc Hd Hc H.
  destruct fuel as [|fuel]; [discriminate|]. rewrite drive_Bind_eq in H.
  destruct (drive fuel (Send body hello off) w) as [[r1 w1]|] eqn:E; [|discriminate].
  destruct (drive_Send body hello base _ _ _ _ _ E Hd) as (Hcl & Hrc1 & Hs).
  rewrite Hrc in Hrc1.
  destruct r1 as [v|e| | | | | |s1 buf1 off1| | | | | |f1 r1]; cbn in Hs; try done.
  - destruct Hs as [-> Hd1].
    destruct fuel as [|fuel]; [discriminate|]. rewrite drive_SinkClose_eq in H.
    unfold Sink_close in H. rewrite bool_decide_eq_false_2 in H by (by rewrite Hcl).
    injection H as <- <-. apply responding_done.
    + change (response_calls (with_host (called (CallFinish body None) (the_host w1)) w1)
              = calls0 ++ [CallResponseWrite response_200 body;
                           CallSetOutparam out (Ok response_200);
                           CallFinish body None]).
      rewrite response_calls_response by done. rewrite Hrc1, <- app_assoc. done.
    + done.
    + cbn. apply elem_of_union. left. by apply elem_of_singleton.
  - injection H as <- <-. destruct Hs as [off1 Hd1]. by eapply responding_failed.
  - destruct Hs as (-> & -> & Hd1). injection H as <- <-.
    apply responding_send; try done. by rewrite Hcl.
  - destruct r1; try done. destruct Hs as (-> & -> & Hd1). injection H as <- <-.
    apply responding_parked; try done. by rewrite Hcl.
Qed.

Lemma responding_drive request out body calls0 base fuel root w root' w' :
  responding request out body calls0 base root w ->
  drive fuel root w = Some (root', w') ->
  responding request out body calls0 base root' w'.
Proof.
  intros Hr H. destruct Hr as [w off Hrc Hd Hc|w off f Hrc Hd Hc|w Hrc Hd Hc|w e off Hrc Hd].
  - by eapply responding_drive_send.
  - destruct fuel as [|fuel]; [discriminate|]. rewrite drive_Bind_eq in H.
    destruct fuel as [|fuel]; [discriminate|]. rewrite drive_Wait_eq in H.
    simplify_eq. by apply responding_parked.
  - destruct fuel as [|fuel]; [discriminate|]. cbn in H. simplify_eq.
    by apply responding_done.
  - destruct fuel as [|fuel]; [discriminate|]. cbn in H. simplify_eq.
    by eapply responding_failed.
Qed.

(** The first step of the "/hello" branch: the response is created and set,
    and the send begins. *)
Lemma handle_async_hello_drive request out fuel w root' w' :
  method request = MethodGet ->
  path_with_query request = Some "/hello"%string ->
  next_handle (the_host w) ∉ closed_sinks w ->
  drive fuel (handle_async request out) w = Some (root', w') ->
  responding request out (next_handle (the_host w)) (response_calls w)
    (downstream (the_host w) !!! next_handle (the_host w)) root' w'.
Proof.
  intros Hm Hp Hc H.
  unfold handle_async in H. rewrite Hm, Hp, path_is_true in H.
  cbn [isinstance_MethodGet andb] in H.
  destruct fuel as [|fuel]; [discriminate|]. rewrite drive_ResponseWrite_eq in H.
  destruct fuel as [|fuel]; [discriminate|]. rewrite drive_Bind_eq in H.
  destruct fuel as [|fuel]; [discriminate|]. rewrite drive_SetOutparam_eq in H.
  cbv beta zeta in H.
  eapply responding_drive_send; [| | |exact H].
  - unfold response_calls in *. cbn. rewrite !List.filter_app. cbn.
    by rewrite <- app_assoc.
  - cbn. by rewrite app_nil_r.
  - done.
Qed.

Lemma responding_same request out body calls0 base root w w' :
  next_handle (the_host w') = next_handle (the_host w) ->
  response_calls w' = response_calls w ->
  downstream (the_host w') = downstream (the_host w) ->
  closed_sinks w' = closed_sinks w ->
  responding request out body calls0 base root w ->
  responding request out body calls0 base root w'.
Proof.
  intros Hn Hrc Hd Hc Hr.
  destruct Hr; [apply responding_send
               |apply responding_parked|apply responding_done
               |eapply responding_failed];
    rewrite ?Hn, ?Hrc, ?Hd, ?Hc; done.
Qed.

Lemma responding_wake request out body calls0 base root w f :
  responding request out body calls0 base root w ->
  responding request out body calls0 base (wake f root) w.
Proof.
  intros Hr. destruct Hr as [w off Hrc Hd Hc|w off f' Hrc Hd Hc|w Hrc Hd Hc|w e off Hrc Hd].
  - by apply responding_send.
  - cbn [wake]. case_match; [by apply responding_send|by apply responding_parked].
  - by apply responding_done.
  - by eapply responding_failed.
Qed.

Section SendThenClose.
Variables (s : handle) (buf : bytes) (n : nat) (post : list write_result).

Lemma drive_SinkClose_open fuel v w :
  s ∉ closed_sinks w ->
  exists w2, drive (S fuel) ((then_close s) v) w = Some (Ret VNone, w2).
Proof using Type.
  intros Hc. unfold then_close. rewrite drive_SinkClose_eq. unfold Sink_close.
  rewrite bool_decide_eq_false_2 by done. eauto.
Qed.

Lemma drive_Bind_Send_accepting pre off w fuel :
  s ∉ closed_sinks w ->
  writable (the_host w) !!! s = pre ++ WriteReady n :: post ->
  forallb (fun r => negb (is_WriteError r)) pre = true ->
  length buf <= off + accepted_total pre + n ->
  length pre + 3 <= fuel ->
  exists r w1,
    drive fuel (Bind (Send s buf off) (then_close s)) w = Some (r, w1) /\
    poll_answer (the_host w1) = poll_answer (the_host w) /\
    (r = Ret VNone \/
     (exists p off' pre',
        r = Bind (Wait (next_frame (the_loop w)) (Send s buf off')) (then_close s) /\
        closed_sinks w1 = closed_sinks w /\
        wakers (the_loop w1) = wakers (the_loop w) ++ [(p, next_frame (the_loop w))] /\
        writable (the_host w1) !!! s = pre' ++ WriteReady n :: post /\
        forallb (fun r => negb (is_WriteError r)) pre' = true /\
        length pre' < length pre /\
        length buf <= off' + accepted_total pre' + n)).
Proof using Type.
  intros Hc Hw Hb Hlen Hfuel.
  destruct fuel as [|fuel]; [lia|]. rewrite drive_Bind_eq.
  destruct (drive_Send_accepting s buf n post pre off w fuel)
    as (r & w1 & Hd & Hcl & Hp & Hcases); try done; [lia|].
  rewrite Hd.
  destruct Hcases as [[-> Hl]|(p & off' & pre' & -> & Hwk & Hw' & Hb' & Hlt & Hlen')].
  - destruct fuel as [|fuel]; [lia|].
    destruct (drive_SinkClose_open fuel VNone w1) as [w2 Hk]; [by rewrite Hcl|].
    rewrite Hk. exists (Ret VNone), w2. repeat split; [|by left].
    rewrite <- Hp. unfold then_close in Hk. rewrite drive_SinkClose_eq in Hk.
    unfold Sink_close in Hk. rewrite bool_decide_eq_false_2 in Hk by (by rewrite Hcl).
    by injection Hk as <-.
  - eexists _, w1. split; [reflexivity|]. split; [done|].
    right. exists p, off', pre'. done.
Qed.

Lemma run_until_complete_Bind_Send_parked : forall k pre,
  length pre <= k ->
  forall off w p f fuel,
    keeps_contract w ->
    s ∉ closed_sinks w ->
    wakers (the_loop w) = [(p, f)] ->
    writable (the_host w) !!! s = pre ++ WriteReady n :: post ->
    forallb (fun r => negb (is_WriteError r)) pre = true ->
    length buf <= off + accepted_total pre + n ->
    k + 5 <= fuel ->
    exists w',
      run_until_complete fuel (Bind (Wait f (Send s buf off)) (then_close s)) w =
        Some (Completed VNone, w').
Proof using Type.
  induction k as [|k IH]; intros pre Hk off w p f fuel Hkeep Hc Hwk Hw Hb Hlen Hfuel;
    (destruct fuel as [|fuel]; [lia|]);
    (destruct fuel as [|fuel]; [lia|]);
    (destruct fuel as [|fuel]; [lia|]).
  all: rewrite (run_until_complete_single _ _ _ p f) by done.
  all: destruct (resumed_facts p f w) as (Hrc & _ & Hrw & _ & Hrp & Hrk).
  all: cbn [wake]; rewrite Nat.eqb_refl.
  all: destruct (drive_Bind_Send_accepting pre off (resumed p f w) (S (S fuel)))
         as (r & w1 & Hd & Hp & Hcases);
    [by rewrite Hrc|by rewrite Hrw|done|done|lia|].
  all: rewrite Hd.
  all: destruct Hcases as [->|(p' & off' & pre' & -> & Hcl & Hwk' & Hw' & Hb' & Hlt & Hlen')].
  - eexists. by apply run_until_complete_Ret.
  - lia.
  - eexists. by apply run_until_complete_Ret.
  - assert (length pre' <= k) as Hk' by lia.
    apply (IH pre' Hk' off' w1 p' (next_frame (the_loop (resumed p f w)))); try done.
    + apply (keeps_contract_same (resumed p f w)); [done|].
      by apply (keeps_contract_same w).
    + by rewrite Hcl, Hrc.
    + lia.
Qed.

Lemma run_until_complete_Bind_Send_accepting pre off w fuel :
  keeps_contract w ->
  s ∉ closed_sinks w ->
  wakers (the_loop w) = [] ->
  writable (the_host w) !!! s = pre ++ WriteReady n :: post ->
  forallb (fun r => negb (is_WriteError r)) pre = true ->
  length buf <= off + accepted_total pre + n ->
  length pre + 3 <= fuel ->
  exists r w1,
    drive fuel (Bind (Send s buf off) (then_close s)) w = Some (r, w1) /\
    (forall F, 2 <= F -> drive F r w1 = Some (r, w1)) /\
    (forall F, length pre + 5 <= F ->
       exists w', run_until_complete F r w1 = Some (Completed VNone, w')).
Proof using Type.
  intros Hkeep Hc Hwk Hw Hb Hlen Hfuel.
  destruct (drive_Bind_Send_accepting pre off w fuel)
    as (r & w1 & Hd & Hp & Hcases); try done.
  exists r, w1. split; [done|].
  destruct Hcases as [->|(p' & off' & pre' & -> & Hcl & Hwk' & Hw' & Hb' & Hlt & Hlen')].
  - split.
    + intros F HF. destruct F as [|F]; [lia|]. apply drive_Ret_eq.
    + intros F HF. exists w1.
      destruct F as [|F]; [lia|]. apply run_until_complete_Ret.
      destruct F as [|F]; [lia|]. apply drive_Ret_eq.
  - split.
    + intros F HF. destruct F as [|F]; [lia|]. destruct F as [|F]; [lia|].
      by rewrite drive_Bind_eq, drive_Wait_eq.
    + intros F HF.
      apply (run_until_complete_Bind_Send_parked (length pre') pre' (le_n _) off' w1
               p' (next_frame (the_loop w)) F); try done.
      * by apply (keeps_contract_same w).
      * by rewrite Hcl.
      * by rewrite Hwk', Hwk.
      * lia.
Qed.
End SendThenClose.

Lemma IncomingHandler_handle_hello_ends request out w fuel o w' :
  method request = MethodGet ->
  path_with_query request = Some "/hello"%string ->
  next_handle (the_host w) ∉ closed_sinks w ->
  IncomingHandler_handle fuel request out w = Some (o, w') ->
  ends_in (responding request out (next_handle (the_host w)) (response_calls w)
             (downstream (the_host w) !!! next_handle (the_host w))) o w'.
Proof.
  intros Hm Hp Hc Hrun. unfold IncomingHandler_handle in Hrun.
  eapply (run_until_complete_invariant_from
            (responding request out (next_handle (the_host w)) (response_calls w)
               (downstream (the_host w) !!! next_handle (the_host w))))
    with (I0 := fun root ww =>
                  root = handle_async request out /\ ww = with_loop PollLoop_new w);
    [..|exact Hrun].
  - intros. by eapply responding_drive.
  - intros root0 w0 e _ Hr. by apply (responding_same _ _ _ _ _ _ w0).
  - intros root0 w0 ws Hr. by apply (responding_same _ _ _ _ _ _ w0).
  - intros root0 w0 ps Hr. apply (responding_same _ _ _ _ _ _ w0); try done.
    by apply response_calls_called with (c := CallPoll ps).
  - intros. by apply responding_wake.
  - intros f0 r0 w0 r1 w1 [-> ->] Hd.
    by apply (handle_async_hello_drive request out f0 (with_loop PollLoop_new w)).
  - done.
Qed.

(** C9: for a GET request for "/hello", with [body] the handle of the new
    response's body: whenever the handler returns, it has created the
    response 200 with the single header content-type: text/plain and set it
    on the response-outparam, and it has sent bytes of "Hello, world!" to
    [body] through the sink, in order.  When it returns normally, all of
    "Hello, world!" went downstream and the sink was closed after that,
    finishing the body; when the send fails, the sink is not closed.  On a
    host that keeps the readiness contract and accepts the bytes, the
    handler does return normally. *)
Theorem hello_is_answered (request : IncomingRequest) (out : ResponseOutparam)
    (w : world) :
  method request = MethodGet ->
  path_with_query request = Some "/hello"%string ->
  next_handle (the_host w) ∉ closed_sinks w ->
  (forall fuel o w',
     IncomingHandler_handle fuel request out w = Some (o, w') ->
     match o with
     | Completed v =>
         v = VNone /\
         response_calls w' =
           response_calls w ++
             [CallResponseWrite response_200 (next_handle (the_host w));
              CallSetOutparam out (Ok response_200);
              CallFinish (next_handle (the_host w)) None] /\
         downstream (the_host w') !!! next_handle (the_host w) =
           downstream (the_host w) !!! next_handle (the_host w) ++ hello /\
         next_handle (the_host w) ∈ closed_sinks w'
     | Fail e =>
         response_calls w' =
           response_calls w ++
             [CallResponseWrite response_200 (next_handle (the_host w));
              CallSetOutparam out (Ok response_200)] /\
         exists n,
           downstream (the_host w') !!! next_handle (the_host w) =
             downstream (the_host w) !!! next_handle (the_host w) ++ take n hello
     end) /\
  (forall pre n post fuel,
     keeps_contract w ->
     writable (the_host w) !!! next_handle (the_host w) = pre ++ WriteReady n :: post ->
     forallb (fun r => negb (is_WriteError r)) pre = true ->
     length hello <= accepted_total pre + n ->
     length pre + 8 <= fuel ->
     exists w', IncomingHandler_handle fuel request out w = Some (Completed VNone, w')).
Proof.
  intros Hm Hp Hc. split.
  - intros fuel o w' Hrun.
    destruct (IncomingHandler_handle_hello_ends _ _ _ _ _ _ Hm Hp Hc Hrun)
      as (root' & Hr & Ho).
    destruct o as [v|e].
    + subst root'. by inversion Hr.
    + destruct Ho as [->|[_ Hsusp]].
      * inversion Hr; subst. eauto.
      * inversion Hr; subst; try done; eauto.
  - intros pre n post fuel Hkeep Hw Hb Hlen Hfuel.
    unfold IncomingHandler_handle.
    destruct fuel as [|fuel]; [lia|].
    destruct fuel as [|fuel]; [lia|].
    destruct fuel as [|fuel]; [lia|].
    destruct fuel as [|fuel]; [lia|].
    set (w0 := with_loop PollLoop_new w).
    set (w2 := with_host
                 (called (CallSetOutparam out (Ok response_200))
                    (called (CallResponseWrite response_200 (next_handle (the_host w)))
                       (set_next_handle (S (next_handle (the_host w))) (the_host w))))
                 w0).
    assert (drive (S (S (S fuel))) (handle_async request out) w0 =
            drive (S fuel) (Bind (Send (next_handle (the_host w)) hello 0)
                              (then_close (next_handle (the_host w)))) w2) as Hfirst.
    { unfold handle_async. rewrite Hm, Hp, path_is_true.
      cbn [isinstance_MethodGet andb].
      rewrite drive_ResponseWrite_eq, drive_Bind_eq, drive_SetOutparam_eq.
      reflexivity. }
    destruct (run_until_complete_Bind_Send_accepting (next_handle (the_host w)) hello n post
                pre 0 w2 (S fuel)) as (r & w1 & Hd & Hidem & Hrun); try done; [lia|].
    assert (drive (S (S (S fuel))) (handle_async request out) w0 = Some (r, w1)) as Hd3.
    { by rewrite Hfirst. }
    destruct (suspended r) eqn:Hs.
    + rewrite (run_until_complete_first_round _ _ _ _ _ Hd3 Hs) by (apply Hidem; lia).
      apply Hrun. lia.
    + destruct r; try discriminate.
      * destruct (Hrun (S (S (S (S fuel))))) as [w' Hrun']; [lia|].
        exists w1. rewrite (run_until_complete_Ret _ _ _ _ _ Hd3).
        rewrite (run_until_complete_Ret (S (S (S fuel))) (Ret v) w1 v w1) in Hrun'
          by apply drive_Ret_eq.
        by injection Hrun' as -> _.
      * destruct (Hrun (S (S (S (S fuel))))) as [w' Hrun']; [lia|].
        by rewrite (run_until_complete_Raise (S (S (S fuel))) (Raise e) w1 e w1) in Hrun'
          by apply drive_Raise_eq.
Qed.

Lemma host_serving_keeps_contract : keeps_contract (world_of host_serving).
Proof. intros cs ps Hne. by apply contract_kept_all_ready. Qed.

Lemma hello_is_answered_witness :
  (VNone = VNone /\
   response_calls world_served =
     response_calls (world_of host_serving) ++
       [CallResponseWrite response_200 (next_handle (the_host (world_of host_serving)));
        CallSetOutparam 1 (Ok response_200);
        CallFinish (next_handle (the_host (world_of host_serving))) None] /\
   downstream (the_host world_served) !!! next_handle (the_host (world_of host_serving)) =
     downstream (the_host (world_of host_serving))
       !!! next_handle (the_host (world_of host_serving)) ++ hello /\
   next_handle (the_host (world_of host_serving)) ∈ closed_sinks world_served) /\
  (exists w',
     IncomingHandler_handle 11 request_hello 1 (world_of host_serving) =
       Some (Completed VNone, w')).
Proof.
  assert (method request_hello = MethodGet) as Hm by reflexivity.
  assert (path_with_query request_hello = Some "/hello"%string) as Hp by reflexivity.
  assert (next_handle (the_host (world_of host_serving))
            ∉ closed_sinks (world_of host_serving)) as Hc
    by (vm_compute; discriminate).
  split.
  - apply (proj1 (hello_is_answered request_hello 1 (world_of host_serving) Hm Hp Hc)
             11 (Completed VNone) world_served).
    vm_compute. reflexivity.
  - apply (proj2 (hello_is_answered request_hello 1 (world_of host_serving) Hm Hp Hc)
             [WriteReady 5; WriteWouldBlock 200; WriteReady 3] 100 [] 11).
    + exact host_serving_keeps_contract.
    + reflexivity.
    + reflexivity.
    + vm_compute. lia.
    + vm_compute. lia.
Defined.

(** ** Closing *)

Lemma run_until_complete_closed_le fuel root w o w' :
  run_until_complete fuel root w = Some (o, w') -> closed_le w w'.
Proof.
  intros H.
  destruct (run_until_complete_invariant (fun _ w1 => closed_le w w1)) with
    (fuel := fuel) (root := root) (w := w) (o := o) (w' := w') as (root' & Hc & _);
    try done.
  - intros f0 r0 w0 r1 w1 Hc Hd. eapply closed_le_trans; [exact Hc|].
    by eapply drive_closed_le.
Qed.

(** C8: once [Stream.close] has been called on a stream, then whatever the
    program does next, be it a computation driven for a while or one run to
    completion, a read or a close of that stream fails with [StreamClosed]
    and leaves the whole world, the host included, as it was: no call
    reaches the host handle.  In the same way a close of a sink on which
    [Sink.close] has been called fails with [SinkClosed]. *)
Theorem closed_stays_closed (s : handle) (w0 w1 w2 : world) (f0 f1 f2 : nat)
    (r0 c r1 : comp) (o : outcome) (max_bytes : nat) :
  drive f1 c w1 = Some (r1, w2) \/ run_until_complete f1 c w1 = Some (o, w2) ->
  (drive f0 (StreamClose s) w0 = Some (r0, w1) ->
     drive (S f2) (NextChunk s max_bytes) w2 = Some (Raise StreamClosed, w2) /\
     drive (S f2) (StreamClose s) w2 = Some (Raise StreamClosed, w2)) /\
  (drive f0 (SinkClose s) w0 = Some (r0, w1) ->
     drive (S f2) (SinkClose s) w2 = Some (Raise SinkClosed, w2)).
Proof.
  intros Hmid.
  assert (closed_le w1 w2) as [Hst Hsk].
  { destruct Hmid as [Hmid|Hmid];
      [by eapply drive_closed_le|by eapply run_until_complete_closed_le]. }
  split; intros Hclose.
  - assert (s ∈ closed_streams w1) as Hin.
    { destruct f0 as [|f0]; [discriminate|]. simpl in Hclose.
      unfold Stream_close in Hclose.
      case_bool_decide; simplify_eq; [done|]. simpl.
      apply elem_of_union. left. by apply elem_of_singleton. }
    assert (s ∈ closed_streams w2) as Hin2 by (by apply Hst).
    simpl. unfold Stream_attempt, Stream_close.
    by rewrite !bool_decide_eq_true_2.
  - assert (s ∈ closed_sinks w1) as Hin.
    { destruct f0 as [|f0]; [discriminate|]. simpl in Hclose.
      unfold Sink_close in Hclose.
      case_bool_decide; simplify_eq; [done|]. simpl.
      apply elem_of_union. left. by apply elem_of_singleton. }
    assert (s ∈ closed_sinks w2) as Hin2 by (by apply Hsk).
    simpl. unfold Sink_close.
    by rewrite !bool_decide_eq_true_2.
Qed.

Lemma closed_stays_closed_witness :
  let w2 := world_at_end (run_until_complete 6 (Send 3 hello 0) world_stream_closed)
              world_stream_closed in
  let w2' := world_after (drive 3 (NextChunk 7 10) world_sink_closed) world_sink_closed in
  (drive 1 (NextChunk 7 10) w2 = Some (Raise StreamClosed, w2) /\
   drive 1 (StreamClose 7) w2 = Some (Raise StreamClosed, w2)) /\
  drive 1 (SinkClose 3) w2' = Some (Raise SinkClosed, w2').
Proof.
  intros w2 w2'. split.
  - apply (closed_stays_closed 7 (world_of host_reading) world_stream_closed w2
             1 6 0 (Ret VNone) (Send 3 hello 0) (Ret VNone) (Completed VNone) 10).
    + right. vm_compute. reflexivity.
    + reflexivity.
  - apply (closed_stays_closed 3 (world_of host_reading) world_sink_closed w2'
             1 3 0 (Ret VNone) (NextChunk 7 10) (Ret (VChunk (b "ab")))
             (Completed VNone) 10).
    + left. reflexivity.
    + reflexivity.
Defined.

(** ** The readiness primitive is given work *)

Lemma run_until_complete_polls fuel root w o w' :
  run_until_complete fuel root w = Some (o, w') -> polled_nonempty_since w w'.
Proof.
  intros H.
  destruct (run_until_complete_invariant (fun _ w1 => polled_nonempty_since w w1)) with
    (fuel := fuel) (root := root) (w := w) (o := o) (w' := w') as (root' & Hc & _);
    try done.
  - intros f0 r0 w0 r1 w1 (new & Hn & Hall) Hd. exists new.
    by rewrite (drive_polls_made _ _ _ _ _ Hd).
  - intros _ w0 ps Hne (new & Hn & Hall). exists (new ++ [ps]). split.
    + cbn [the_host with_host]. by rewrite polls_made_called, Hn, app_assoc.
    + apply Forall_app. split; [done|]. by apply Forall_singleton.
  - exists []. by rewrite app_nil_r.
Qed.



(** * Further properties of the handler *)

Lemma resume_all_mono fuel fuel' : forall frames root w r,
  resume_all fuel frames root w = Some r -> fuel <= fuel' ->
  resume_all fuel' frames root w = Some r.
Proof.
  induction frames as [|[p f] frames IH]; intros root w r H Hle; [done|].
  cbn [resume_all] in *.
  destruct (drive fuel (wake f root) (traced (EvResume p f) w)) as [[r1 w1]|] eqn:E;
    [|discriminate].
  rewrite (drive_mono _ _ _ _ _ E Hle). by apply IH.
Qed.

Lemma run_until_complete_mono fuel : forall fuel' root w r,
  run_until_complete fuel root w = Some r -> fuel <= fuel' ->
  run_until_complete fuel' root w = Some r.
Proof.
  induction fuel as [|fuel IH]; intros fuel' root w r H Hle; [discriminate|].
  destruct fuel' as [|fuel']; [lia|].
  assert (fuel <= fuel') as Hle' by lia.
  destruct (drive fuel root w) as [[root1 w1]|] eqn:E;
    [|cbn in H; rewrite E in H; discriminate].
  pose proof (drive_mono _ _ _ _ _ E Hle') as E'.
  destruct (suspended root1) eqn:Hs.
  - rewrite (run_until_complete_suspended _ _ _ _ _ E Hs) in H.
    rewrite (run_until_complete_suspended _ _ _ _ _ E' Hs).
    cbv zeta in *.
    destruct ((wakers (the_loop w1)).*1) as [|p0 ps0]; [discriminate|].
    destruct (poll_list (p0 :: ps0) (the_host w1)) as [ready hst].
    destruct (contract_kept ready (p0 :: ps0)); [|exact H].
    destruct (split_ready ready 0 (wakers (the_loop w1))) as [rs ns].
    match type of H with
    | match resume_all _ _ _ ?w2 with _ => _ end = _ =>
        destruct (resume_all fuel rs root1 w2) as [[root2 w3]|] eqn:Er;
          [|discriminate]
    end.
    rewrite (resume_all_mono _ _ _ _ _ _ Er Hle'). by apply IH.
  - cbn [run_until_complete] in *. rewrite E in H. rewrite E'.
    by destruct root1.
Qed.

Lemma IncomingHandler_handle_non_get request response_out w fuel :
  method request <> MethodGet ->
  5 <= fuel ->
  IncomingHandler_handle fuel request response_out w =
    Some (Completed VNone, refused response_out w).
Proof.
  intros Hm Hfuel.
  apply isinstance_MethodGet_false in Hm.
  do 5 (destruct fuel as [|fuel]; [lia|]).
  unfold IncomingHandler_handle, handle_async. rewrite Hm.
  cbn [andb]. by apply run_until_complete_Ret.
Qed.

Lemma IncomingHandler_handle_get_other request response_out w fuel :
  method request = MethodGet ->
  path_is (path_with_query request) "/hello" = false ->
  2 <= fuel ->
  IncomingHandler_handle fuel request response_out w =
    Some (Completed VNone, delegated request response_out w).
Proof.
  intros Hm Hp Hfuel.
  do 2 (destruct fuel as [|fuel]; [lia|]).
  unfold IncomingHandler_handle, handle_async. rewrite Hm, Hp.
  by apply run_until_complete_Ret.
Qed.

(** X1: the path plays no part for a method other than GET: every such
    request, one for "/hello" or one without a path included, is answered
    with the response 400 without headers, whose body is finished at once;
    the handler returns without suspending, and nothing was read from the
    host or written downstream. *)
Theorem non_get_is_refused (request : IncomingRequest) (response_out : ResponseOutparam)
    (w : world) (fuel : nat) :
  method request <> MethodGet ->
  5 <= fuel ->
  exists w',
    IncomingHandler_handle fuel request response_out w = Some (Completed VNone, w') /\
    calls (the_host w') =
      calls (the_host w) ++
        [CallSetOutparam response_out (Ok response_400);
         CallResponseWrite response_400 (next_handle (the_host w));
         CallFinish (next_handle (the_host w)) None] /\
    downstream (the_host w') = downstream (the_host w) /\
    readable (the_host w') = readable (the_host w) /\
    closed_sinks w' = closed_sinks w /\
    trace (the_loop w') = [].
Proof.
  intros Hm Hfuel. exists (refused response_out w).
  split; [by apply IncomingHandler_handle_non_get|].
  cbn. by rewrite <- !app_assoc.
Qed.

Lemma non_get_is_refused_witness :
  exists w',
    IncomingHandler_handle 5 request_post_hello 1 (world_of host_serving) =
      Some (Completed VNone, w') /\
    calls (the_host w') =
      calls (the_host (world_of host_serving)) ++
        [CallSetOutparam 1 (Ok response_400);
         CallResponseWrite response_400 (next_handle (the_host (world_of host_serving)));
         CallFinish (next_handle (the_host (world_of host_serving))) None] /\
    downstream (the_host w') = downstream (the_host (world_of host_serving)) /\
    readable (the_host w') = readable (the_host (world_of host_serving)) /\
    closed_sinks w' = closed_sinks (world_of host_serving) /\
    trace (the_loop w') = [].
Proof.
  apply (non_get_is_refused request_post_hello 1 (world_of host_serving) 5).
  - cbn. discriminate.
  - lia.
Defined.

Lemma isinstance_MethodGet_true m : isinstance_MethodGet m = true <-> m = MethodGet.
Proof. destruct m; cbn; split; congruence. Qed.

Lemma filter_decides_response_calls (l : list host_call) :
  List.filter decides (List.filter response_call l) = List.filter decides l.
Proof.
  induction l as [|c l IH]; [done|].
  destruct c; cbn; by rewrite ?IH.
Qed.

(** X2: whenever the handler returns, normally or with a failure, it has
    taken exactly one decision about the request: it set one response on
    the response-outparam or it handed the request over, never both and
    never twice.  The decision is the response 200 for GET "/hello", the
    hand-over for any other GET, and the response 400 for every other
    method. *)
Theorem exactly_one_decision (request : IncomingRequest) (response_out : ResponseOutparam)
    (w w' : world) (fuel : nat) (o : outcome) :
  next_handle (the_host w) ∉ closed_sinks w ->
  IncomingHandler_handle fuel request response_out w = Some (o, w') ->
  decisions w' = decisions w ++ [decision_for request response_out].
Proof.
  intros Hc Hrun. unfold decision_for.
  destruct (isinstance_MethodGet (method request)) eqn:Hm.
  - apply isinstance_MethodGet_true in Hm.
    destruct (path_is (path_with_query request) "/hello") eqn:Hp.
    + apply bool_decide_eq_true in Hp.
      destruct (IncomingHandler_handle_hello_ends _ _ _ _ _ _ Hm Hp Hc Hrun)
        as (root' & Hr & _).
      unfold decisions.
      rewrite <- (filter_decides_response_calls (calls (the_host w'))).
      rewrite <- (filter_decides_response_calls (calls (the_host w))).
      fold (response_calls w'). fold (response_calls w).
      destruct Hr as [? ? -> _ _|? ? ? -> _ _|? -> _ _|? ? ? -> _];
        by rewrite List.filter_app.
    + apply (run_until_complete_mono _ (fuel + 2)) in Hrun; [|lia].
      fold (IncomingHandler_handle (fuel + 2) request response_out w) in Hrun.
      rewrite IncomingHandler_handle_get_other in Hrun by (done || lia).
      injection Hrun as _ <-. unfold decisions. cbn.
      by rewrite List.filter_app.
  - apply isinstance_MethodGet_false in Hm.
    apply (run_until_complete_mono _ (fuel + 5)) in Hrun; [|lia].
    fold (IncomingHandler_handle (fuel + 5) request response_out w) in Hrun.
    rewrite IncomingHandler_handle_non_get in Hrun by (done || lia).
    injection Hrun as _ <-. unfold decisions. cbn.
    rewrite !List.filter_app. cbn. by rewrite !app_nil_r.
Qed.

Lemma exactly_one_decision_witness :
  decisions world_served =
    decisions (world_of host_serving) ++ [decision_for request_hello 1].
Proof.
  apply (exactly_one_decision request_hello 1 (world_of host_serving) world_served
           11 (Completed VNone)).
  - vm_compute. discriminate.
  - vm_compute. reflexivity.
Defined.

(** ** The calls of the "/hello" branch *)

Lemma own_calls_called c w hst :
  calls hst = calls (the_host w) ++ [c] ->
  own_calls (with_host hst w) =
    own_calls w ++ (if is_CallPoll c then [] else [c]).
Proof.
  intros E. unfold own_calls. cbn. rewrite E, List.filter_app. cbn.
  by destruct (is_CallPoll c).
Qed.

Lemma Sink_attempt_calls s buf off w a w' :
  Sink_attempt s buf off w = (a, w') ->
  closed_sinks w' = closed_sinks w /\
  (own_calls w' = own_calls w \/
   own_calls w' = own_calls w ++ [CallWrite s (drop off buf)]) /\
  match a with Delivered v => v = VNone | _ => True end.
Proof.
  unfold Sink_attempt, non_blocking_write. intros H.
  case_bool_decide; [simplify_eq; by eauto|].
  cbn in H.
  destruct (writable (the_host w) !!! s) as [|[n|p|c] rest]; cbn in H;
    try case_match; simplify_eq;
    (split; [done|]; split; [|done]; right;
     by apply own_calls_called with (c := CallWrite s (drop off buf))).
Qed.

Lemma drive_Send_calls s buf fuel : forall off w r w',
  drive fuel (Send s buf off) w = Some (r, w') ->
  closed_sinks w' = closed_sinks w /\
  (exists writes,
     own_calls w' = own_calls w ++ writes /\
     Forall (writes_rest s buf) writes) /\
  (r = Ret VNone \/ (exists e, r = Raise e) \/
   exists f off', r = Wait f (Send s buf off')).
Proof.
  induction fuel as [|fuel IH]; intros off w r w' H; [discriminate|].
  rewrite drive_Send_eq in H.
  destruct (Sink_attempt s buf off w) as [a w1] eqn:Ea.
  destruct (Sink_attempt_calls _ _ _ _ _ _ Ea) as (Hc & Hcalls & Ha).
  assert (exists writes, own_calls w1 = own_calls w ++ writes /\
                         Forall (writes_rest s buf) writes) as (ws1 & Hw1 & Hf1).
  { destruct Hcalls as [->| ->].
    - exists []. by rewrite app_nil_r.
    - eexists. split; [done|]. apply Forall_singleton. by exists off. }
  destruct a.
  - injection H as <- <-. subst v. split; [done|]. split; [by eauto|by left].
  - unfold register in H. injection H as <- <-.
    split; [done|]. split; [by eauto|]. right. right. by eauto.
  - destruct (IH _ _ _ _ H) as (Hc2 & (ws2 & Hw2 & Hf2) & Hr).
    split; [by rewrite Hc2|]. split; [|done].
    exists (ws1 ++ ws2). rewrite Hw2, Hw1, app_assoc. split; [done|].
    by apply Forall_app.
  - injection H as <- <-. split; [done|]. split; [by eauto|]. right. left. by eauto.
Qed.

Lemma logging_drive_send out body calls0 fuel w off writes r' w' :
  own_calls w =
    calls0 ++ [CallResponseWrite response_200 body;
               CallSetOutparam out (Ok response_200)] ++ writes ->
  Forall (writes_rest body hello) writes ->
  body ∉ closed_sinks w ->
  drive fuel (Bind (Send body hello off) (fun _ => SinkClose body)) w = Some (r', w') ->
  logging out body calls0 r' w'.
Proof.
  intros Hcalls Hall Hc H.
  destruct fuel as [|fuel]; [discriminate|]. rewrite drive_Bind_eq in H.
  destruct (drive fuel (Send body hello off) w) as [[r1 w1]|] eqn:E; [|discriminate].
  destruct (drive_Send_calls _ _ _ _ _ _ _ E) as (Hc1 & (ws & Hw & Hf) & Hr).
  assert (own_calls w1 =
            calls0 ++ [CallResponseWrite response_200 body;
                       CallSetOutparam out (Ok response_200)] ++ writes ++ ws) as Hw1.
  { rewrite Hw, Hcalls. by rewrite <- !app_assoc. }
  assert (Forall (writes_rest body hello) (writes ++ ws)) as Hall1
    by (by apply Forall_app).
  destruct Hr as [->|[[e ->]|(f & off' & ->)]].
  - destruct fuel as [|fuel]; [discriminate|]. rewrite drive_SinkClose_eq in H.
    unfold Sink_close in H. rewrite bool_decide_eq_false_2 in H by (by rewrite Hc1).
    injection H as <- <-. apply (logging_done _ _ _ _ (writes ++ ws)); [|done].
    change (own_calls (with_host (called (CallFinish body None) (the_host w1)) w1) =
            calls0 ++ [CallResponseWrite response_200 body;
                       CallSetOutparam out (Ok response_200)] ++
              (writes ++ ws) ++ [CallFinish body None]).
    rewrite (own_calls_called (CallFinish body None)) by done.
    rewrite Hw1. cbn [is_CallPoll]. by rewrite <- !app_assoc.
  - injection H as <- <-. by apply (logging_failed _ _ _ _ _ (writes ++ ws)).
  - injection H as <- <-. apply (logging_parked _ _ _ _ _ _ (writes ++ ws)); try done.
    by rewrite Hc1.
Qed.

Lemma logging_drive out body calls0 fuel root w root' w' :
  logging out body calls0 root w ->
  drive fuel root w = Some (root', w') ->
  logging out body calls0 root' w'.
Proof.
  intros Hl H.
  destruct Hl as [w off ws Hcalls Hall Hc|w off f ws Hcalls Hall Hc
                 |w ws Hcalls Hall|w e ws Hcalls Hall].
  - by eapply logging_drive_send.
  - destruct fuel as [|fuel]; [discriminate|]. rewrite drive_Bind_eq in H.
    destruct fuel as [|fuel]; [discriminate|]. rewrite drive_Wait_eq in H.
    injection H as <- <-. by eapply logging_parked.
  - destruct fuel as [|fuel]; [discriminate|]. rewrite drive_Ret_eq in H.
    injection H as <- <-. by eapply logging_done.
  - destruct fuel as [|fuel]; [discriminate|]. rewrite drive_Raise_eq in H.
    injection H as <- <-. by eapply logging_failed.
Qed.

Lemma logging_same out body calls0 root w w' :
  own_calls w' = own_calls w ->
  closed_sinks w' = closed_sinks w ->
  logging out body calls0 root w ->
  logging out body calls0 root w'.
Proof.
  intros Ho Hc Hl.
  destruct Hl; [eapply logging_send|eapply logging_parked
               |eapply logging_done|eapply logging_failed];
    rewrite ?Ho, ?Hc; done.
Qed.

Lemma logging_wake out body calls0 root w f :
  logging out body calls0 root w ->
  logging out body calls0 (wake f root) w.
Proof.
  intros Hl.
  destruct Hl as [w off ws Hcalls Hall Hc|w off f' ws Hcalls Hall Hc
                 |w ws Hcalls Hall|w e ws Hcalls Hall].
  - by eapply logging_send.
  - cbn [wake]. case_match; [by eapply logging_send|by eapply logging_parked].
  - by eapply logging_done.
  - by eapply logging_failed.
Qed.

Lemma handle_async_hello_logging request out fuel w root' w' :
  method request = MethodGet ->
  path_with_query request = Some "/hello"%string ->
  next_handle (the_host w) ∉ closed_sinks w ->
  drive fuel (handle_async request out) w = Some (root', w') ->
  logging out (next_handle (the_host w)) (own_calls w) root' w'.
Proof.
  intros Hm Hp Hc H.
  unfold handle_async in H. rewrite Hm, Hp, path_is_true in H.
  cbn [isinstance_MethodGet andb] in H.
  destruct fuel as [|fuel]; [discriminate|]. rewrite drive_ResponseWrite_eq in H.
  destruct fuel as [|fuel]; [discriminate|]. rewrite drive_Bind_eq in H.
  destruct fuel as [|fuel]; [discriminate|]. rewrite drive_SetOutparam_eq in H.
  cbv beta zeta in H.
  eapply (logging_drive_send _ _ _ _ _ _ []); [| | |exact H].
  - unfold own_calls. cbn. rewrite !List.filter_app. cbn.
    by rewrite <- !app_assoc.
  - done.
  - done.
Qed.

Lemma IncomingHandler_handle_hello_logs request out w fuel o w' :
  method request = MethodGet ->
  path_with_query request = Some "/hello"%string ->
  next_handle (the_host w) ∉ closed_sinks w ->
  IncomingHandler_handle fuel request out w = Some (o, w') ->
  ends_in (logging out (next_handle (the_host w)) (own_calls w)) o w'.
Proof.
  intros Hm Hp Hc Hrun. unfold IncomingHandler_handle in Hrun.
  eapply (run_until_complete_invariant_from
            (logging out (next_handle (the_host w)) (own_calls w)))
    with (I0 := fun root ww =>
                  root = handle_async request out /\ ww = with_loop PollLoop_new w);
    [..|exact Hrun].
  - intros. by eapply logging_drive.
  - intros root0 w0 e _ Hl. by apply (logging_same _ _ _ _ w0).
  - intros root0 w0 ws Hl. by apply (logging_same _ _ _ _ w0).
  - intros root0 w0 ps _ Hl. apply (logging_same _ _ _ _ w0); try done.
    rewrite (own_calls_called (CallPoll ps)) by done. cbn. by rewrite app_nil_r.
  - intros. by apply logging_wake.
  - intros f0 r0 w0 r1 w1 [-> ->] Hd.
    by apply (handle_async_hello_logging request out f0 (with_loop PollLoop_new w)).
  - done.
Qed.



(** ** A send on a host that breaks *)

Lemma Sink_attempt_error s buf off w c rest :
  s ∉ closed_sinks w ->
  writable (the_host w) !!! s = WriteError c :: rest ->
  exists w1,
    Sink_attempt s buf off w = (Failed (SinkWriteError c), w1) /\
    only_wrote s rest w w1.
Proof.
  intros Hc Hw. unfold Sink_attempt, non_blocking_write.
  rewrite bool_decide_eq_false_2 by done. cbn. rewrite Hw.
  eexists; (split; [reflexivity|]).
  unfold only_wrote; cbn; by rewrite lookup_total_insert_eq.
Qed.

Lemma drive_Send_failing s buf c post : forall pre off w fuel,
  s ∉ closed_sinks w ->
  writable (the_host w) !!! s = pre ++ WriteError c :: post ->
  forallb (fun r => negb (is_WriteError r)) pre = true ->
  off + accepted_total pre < length buf ->
  length pre + 1 <= fuel ->
  exists r w1,
    drive fuel (Send s buf off) w = Some (r, w1) /\
    closed_sinks w1 = closed_sinks w /\
    poll_answer (the_host w1) = poll_answer (the_host w) /\
    ((r = Raise (SinkWriteError c) /\ the_loop w1 = the_loop w) \/
     (exists p off' pre',
        r = Wait (next_frame (the_loop w)) (Send s buf off') /\
        wakers (the_loop w1) = wakers (the_loop w) ++ [(p, next_frame (the_loop w))] /\
        writable (the_host w1) !!! s = pre' ++ WriteError c :: post /\
        forallb (fun r => negb (is_WriteError r)) pre' = true /\
        length pre' < length pre /\
        off' + accepted_total pre' < length buf)).
Proof.
  induction pre as [|a pre IH]; intros off w fuel Hc Hw Hb Hlen Hfuel;
    (destruct fuel as [|fuel]; [cbn in Hfuel; lia|]); rewrite drive_Send_eq.
  - rewrite app_nil_l in Hw.
    destruct (Sink_attempt_error s buf off w c post Hc Hw) as (w1 & Ha & Hrest & Hcl & Hl & Hp).
    rewrite Ha. exists (Raise (SinkWriteError c)), w1. repeat split; try done. by left.
  - cbn [forallb] in Hb. apply andb_true_iff in Hb as [Ha Hb].
    rewrite <- app_comm_cons in Hw.
    assert (accepted_total (a :: pre) = accepts a + accepted_total pre) as Htot
      by reflexivity.
    rewrite Htot in Hlen. cbn [length] in Hfuel.
    destruct a as [m|p|c0]; [| |done]; cbn [accepts] in Hlen.
    + destruct (Sink_attempt_ready s buf off w m _ Hc Hw) as (w1 & Hat & Hrest & Hcl & Hl & Hp).
      rewrite Hat.
      assert ((length buf <=? off + (m `min` length (drop off buf))) = false) as ->.
      { apply Nat.leb_gt. lia. }
      destruct (IH (off + (m `min` length (drop off buf))) w1 fuel)
        as (r & w2 & Hd & Hcl2 & Hp2 & Hcases).
      { by rewrite Hcl. }
      { done. }
      { done. }
      { lia. }
      { lia. }
      exists r, w2. rewrite Hd, Hcl2, Hcl, Hp2, Hp. repeat split; try done.
      destruct Hcases as [[-> Hl2]|(p & off' & pre' & -> & Hwk & Hw2 & Hb2 & Hlt & Hlen2)].
      * left. by rewrite Hl2, Hl.
      * right. exists p, off', pre'. rewrite Hl in *.
        repeat split; try done. cbn [length]. lia.
    + destruct (Sink_attempt_block s buf off w p _ Hc Hw) as (w1 & Hat & Hrest & Hcl & Hl & Hp).
      rewrite Hat. unfold register.
      eexists _, _. split; [reflexivity|]. cbn. repeat split; try done.
      right. exists p, off, pre. rewrite Hl.
      repeat split; try done; lia.
Qed.

Lemma run_until_complete_Bind_Send_failing_parked s buf c post k0 : forall k pre,
  length pre <= k ->
  forall off w p f fuel,
    keeps_contract w ->
    s ∉ closed_sinks w ->
    wakers (the_loop w) = [(p, f)] ->
    writable (the_host w) !!! s = pre ++ WriteError c :: post ->
    forallb (fun r => negb (is_WriteError r)) pre = true ->
    off + accepted_total pre < length buf ->
    k + 5 <= fuel ->
    exists w',
      run_until_complete fuel (Bind (Wait f (Send s buf off)) k0) w =
        Some (Fail (SinkWriteError c), w').
Proof.
  induction k as [|k IH]; intros pre Hk off w p f fuel Hkeep Hc Hwk Hw Hb Hlen Hfuel;
    (destruct fuel as [|fuel]; [lia|]);
    (destruct fuel as [|fuel]; [lia|]);
    (destruct fuel as [|fuel]; [lia|]).
  all: rewrite (run_until_complete_single _ _ _ p f) by done.
  all: destruct (resumed_facts p f w) as (Hrc & _ & Hrw & _ & Hrp & Hrk).
  all: cbn [wake]; rewrite Nat.eqb_refl.
  all: destruct (drive_Send_failing s buf c post pre off (resumed p f w) (S fuel))
         as (r & w1 & Hd & Hcl & Hp & Hcases);
    [by rewrite Hrc|by rewrite Hrw|done|done|lia|].
  all: rewrite drive_Bind_eq, Hd.
  all: destruct Hcases as [[-> Hl]|(p' & off' & pre' & -> & Hwk' & Hw' & Hb' & Hlt & Hlen')].
  - eexists. by apply run_until_complete_Raise.
  - lia.
  - eexists. by apply run_until_complete_Raise.
  - assert (length pre' <= k) as Hk' by lia.
    apply (IH pre' Hk' off' w1 p' (next_frame (the_loop (resumed p f w)))); try done.
    + apply (keeps_contract_same (resumed p f w)); [done|].
      by apply (keeps_contract_same w).
    + by rewrite Hcl, Hrc.
    + lia.
Qed.

Lemma run_until_complete_Bind_Send_failing s buf c post k0 pre off w fuel :
  keeps_contract w ->
  s ∉ closed_sinks w ->
  wakers (the_loop w) = [] ->
  writable (the_host w) !!! s = pre ++ WriteError c :: post ->
  forallb (fun r => negb (is_WriteError r)) pre = true ->
  off + accepted_total pre < length buf ->
  length pre + 3 <= fuel ->
  exists r w1,
    drive fuel (Bind (Send s buf off) k0) w = Some (r, w1) /\
    (forall F, 2 <= F -> drive F r w1 = Some (r, w1)) /\
    (forall F, length pre + 5 <= F ->
       exists w', run_until_complete F r w1 = Some (Fail (SinkWriteError c), w')).
Proof.
  intros Hkeep Hc Hwk Hw Hb Hlen Hfuel.
  destruct fuel as [|fuel]; [lia|].
  destruct (drive_Send_failing s buf c post pre off w fuel)
    as (r & w1 & Hd & Hcl & Hp & Hcases); try done; [lia|].
  rewrite drive_Bind_eq, Hd.
  destruct Hcases as [[-> Hl]|(p' & off' & pre' & -> & Hwk' & Hw' & Hb' & Hlt & Hlen')].
  - eexists _, _. split; [reflexivity|]. split.
    + intros F HF. destruct F as [|F]; [lia|]. apply drive_Raise_eq.
    + intros F HF. exists w1. destruct F as [|F]; [lia|].
      apply run_until_complete_Raise.
      destruct F as [|F]; [lia|]. apply drive_Raise_eq.
  - eexists _, _. split; [reflexivity|]. split.
    + intros F HF. destruct F as [|[|F]]; [lia|lia|]. reflexivity.
    + intros F HF. rewrite Hwk in Hwk'. rewrite app_nil_l in Hwk'.
      apply (run_until_complete_Bind_Send_failing_parked s buf c post k0
               (length pre') pre' (le_n _) off' w1 p' (next_frame (the_loop w)));
        try done.
      * by apply (keeps_contract_same w).
      * by rewrite Hcl.
      * lia.
Qed.

Lemma host_breaking_keeps_contract : keeps_contract (world_of host_breaking).
Proof. intros cs ps Hne. by apply contract_kept_all_ready. Qed.

(** X4: for a GET request for "/hello" on a host that keeps the readiness
    contract, when the response body takes fewer bytes than "Hello, world!"
    and then reports a write error, the handler ends by raising that very
    error: it is not caught.  The response 200 was set before, and the body
    is never finished. *)
Theorem write_error_escapes_handler (request : IncomingRequest)
    (out : ResponseOutparam) (w : world) (c : string)
    (pre post : list write_result) (fuel : nat) :
  method request = MethodGet ->
  path_with_query request = Some "/hello"%string ->
  next_handle (the_host w) ∉ closed_sinks w ->
  keeps_contract w ->
  writable (the_host w) !!! next_handle (the_host w) = pre ++ WriteError c :: post ->
  forallb (fun r => negb (is_WriteError r)) pre = true ->
  accepted_total pre < length hello ->
  length pre + 8 <= fuel ->
  exists w',
    IncomingHandler_handle fuel request out w = Some (Fail (SinkWriteError c), w') /\
    response_calls w' =
      response_calls w ++
        [CallResponseWrite response_200 (next_handle (the_host w));
         CallSetOutparam out (Ok response_200)].
Proof.
  intros Hm Hp Hc Hkeep Hw Hb Hlen Hfuel.
  assert (exists w', IncomingHandler_handle fuel request out w =
                       Some (Fail (SinkWriteError c), w')) as [w' Hrun].
  { unfold IncomingHandler_handle.
    destruct fuel as [|fuel]; [lia|].
    destruct fuel as [|fuel]; [lia|].
    destruct fuel as [|fuel]; [lia|].
    destruct fuel as [|fuel]; [lia|].
    set (w0 := with_loop PollLoop_new w).
    set (w2 := with_host
                 (called (CallSetOutparam out (Ok response_200))
                    (called (CallResponseWrite response_200 (next_handle (the_host w)))
                       (set_next_handle (S (next_handle (the_host w))) (the_host w))))
                 w0).
    assert (drive (S (S (S fuel))) (handle_async request out) w0 =
            drive (S fuel) (Bind (Send (next_handle (the_host w)) hello 0)
                              (then_close (next_handle (the_host w)))) w2) as Hfirst.
    { unfold handle_async. rewrite Hm, Hp, path_is_true.
      cbn [isinstance_MethodGet andb].
      rewrite drive_ResponseWrite_eq, drive_Bind_eq, drive_SetOutparam_eq.
      reflexivity. }
    destruct (run_until_complete_Bind_Send_failing (next_handle (the_host w)) hello c post
                (then_close (next_handle (the_host w))) pre 0 w2 (S fuel))
      as (r & w1 & Hd & Hidem & Hrun); try done; [lia|].
    assert (drive (S (S (S fuel))) (handle_async request out) w0 = Some (r, w1)) as Hd3.
    { by rewrite Hfirst. }
    destruct (suspended r) eqn:Hs.
    - rewrite (run_until_complete_first_round _ _ _ _ _ Hd3 Hs) by (apply Hidem; lia).
      apply Hrun. lia.
    - destruct r; try discriminate.
      + destruct (Hrun (S (S (S (S fuel))))) as [w' Hrun']; [lia|].
        by rewrite (run_until_complete_Ret (S (S (S fuel))) (Ret v) w1 v w1) in Hrun'
          by apply drive_Ret_eq.
      + destruct (Hrun (S (S (S (S fuel))))) as [w' Hrun']; [lia|].
        exists w1. rewrite (run_until_complete_Raise _ _ _ _ _ Hd3).
        rewrite (run_until_complete_Raise (S (S (S fuel))) (Raise e) w1 e w1) in Hrun'
          by apply drive_Raise_eq.
        by injection Hrun' as -> _. }
  exists w'. split; [done|].
  destruct (IncomingHandler_handle_hello_ends _ _ _ _ _ _ Hm Hp Hc Hrun)
    as (root' & Hr & [->|[? _]]); [|done].
  by inversion Hr.
Qed.

Lemma write_error_escapes_handler_witness :
  exists w',
    IncomingHandler_handle 10 request_hello 1 (world_of host_breaking) =
      Some (Fail (SinkWriteError "broken pipe"%string), w') /\
    response_calls w' =
      response_calls (world_of host_breaking) ++
        [CallResponseWrite response_200 (next_handle (the_host (world_of host_breaking)));
         CallSetOutparam 1 (Ok response_200)].
Proof.
  apply (write_error_escapes_handler request_hello 1 (world_of host_breaking)
           "broken pipe"%string [WriteReady 5; WriteWouldBlock 200] [] 10).
  - reflexivity.
  - reflexivity.
  - vm_compute. discriminate.
  - exact host_breaking_keeps_contract.
  - reflexivity.
  - reflexivity.
  - vm_compute. lia.
  - vm_compute. lia.
Defined.
